(** * The class-frequency sampler of tfx_addons/sampler/executor.py

    A shallow embedding of the sampling pipeline of the executor
    ([generate_elements], [filter_null], [sample_data], [sample_examples])
    together with the few Python, protobuf and Beam operations it calls, and
    the properties of the resampling core proved over that embedding.

    Conventions.
    - A Python [str] is represented by its UTF-8 encoding, a Rocq [string].
    - A Python exception is a value of [PyError] carried by [result].
    - The pseudo-random generator of the [random] module is an explicit
      stream of raw draws threaded through the sampling code; a statement
      quantified over every generator covers every run of the program.
    - A Beam PCollection is a list; Beam promises no element order, so the
      statements about whole collections are up to permutation. *)

From Stdlib.Strings Require Import Byte.
From stdpp Require Import gmap strings list pretty.

(** ** Python values and exceptions *)

(** The class label computed by [generate_elements]: [None], an [int] taken
    from an int64 list, or a [str] decoded from a bytes list. *)
Inductive LabelValue : Type :=
  | LNone
  | LInt (z : Z)
  | LStr (s : string).

#[global] Instance LabelValue_eq_dec : EqDecision LabelValue.
Proof. solve_decision. Defined.

Inductive PyError : Type :=
  | ValueError
  | IndexError
  | UnicodeDecodeError.

Inductive result (A : Type) : Type :=
  | Ok (a : A)
  | Raise (e : PyError).
Arguments Ok {A} a.
Arguments Raise {A} e.

(** [str(x)] on a label. *)
Definition str (l : LabelValue) : string :=
  match l with
  | LNone => "None"
  | LInt z => pretty z
  | LStr s => s
  end.

(** [bool(x)] on a label: [None], [0] and the empty string are falsy. *)
Definition bool_of (l : LabelValue) : bool :=
  match l with
  | LNone => false
  | LInt z => negb (Z.eqb z 0)
  | LStr s => negb (String.eqb s EmptyString)
  end.

(** [x == 0] on a label: only the integer zero compares equal to [0]. *)
Definition eq_zero (l : LabelValue) : bool :=
  match l with
  | LInt z => Z.eqb z 0
  | _ => false
  end.

(** [keep_classes] / [null_vals]: [None] or a list of class names.
    [null_vals and str(item[0]) in null_vals]. *)
Definition in_null_vals (s : string) (null_vals : option (list string)) : bool :=
  match null_vals with
  | None => false
  | Some [] => false
  | Some vals => bool_decide (s ∈ vals)
  end.

(** ** [filter_null] *)

Section FilterNull.
Context {V : Type}.

(** The first assignment of [keep]: label [0] is kept, any other label is
    kept when it is truthy. *)
Definition keep_label (l : LabelValue) : bool :=
  if eq_zero l then true else bool_of l.

Definition filter_null (item : LabelValue * V) (keep_null : bool)
    (null_vals : option (list string)) : option (LabelValue * V) :=
  let keep := keep_label (fst item) in
  let keep :=
    if in_null_vals (str (fst item)) null_vals && keep then false else keep in
  let keep := xorb keep keep_null in
  if keep then Some item else None.

(** [beam.Filter(lambda x: filter_null(x, ...))] keeps [x] when the value
    returned is truthy: the item (a pair) is, [None] is not. *)
Definition filter_pred (keep_null : bool) (null_vals : option (list string))
    (item : LabelValue * V) : bool :=
  match filter_null item keep_null null_vals with
  | Some _ => true
  | None => false
  end.
End FilterNull.

(** The three buckets the two uses of [filter_null] tell apart, read off the
    intermediate values of [keep]: a label that is not kept by the first
    assignment is null, a kept label listed in [null_vals] is exempt, every
    other label is countable. *)
Inductive Bucket : Type := NULL | EXEMPT | COUNTABLE.

#[global] Instance Bucket_eq_dec : EqDecision Bucket.
Proof. solve_decision. Defined.

Definition bucket_of (l : LabelValue) (null_vals : option (list string)) : Bucket :=
  if negb (keep_label l) then NULL
  else if in_null_vals (str l) null_vals then EXEMPT
  else COUNTABLE.

(** The partition policy in the words of the specification: absent is null,
    a present label whose string form is in the exempt set is exempt, every
    other label is countable. *)
Definition spec_bucket_of (l : LabelValue) (exempt : list string) : Bucket :=
  match l with
  | LNone => NULL
  | _ => if bool_decide (str l ∈ exempt) then EXEMPT else COUNTABLE
  end.

(** ** The [random] module

    The generator is a stream of raw draws.  [randbelow n] consumes one draw
    and reduces it below [n], so that every number below [n] is the outcome
    of some generator.  [random.sample] is the pool algorithm of the
    standard library (select a position of the live pool, move the last live
    item into the vacancy); the library switches to rejection sampling on
    large populations, with the same outcomes, and the pool algorithm stands
    for both here.  [random.choices] indexes the population with one
    independent draw per item. *)

Definition Random : Type := nat → nat.

(** Computations that consume draws and may raise. *)
Definition Rand (A : Type) : Type := Random → result (A * Random).

#[global] Instance Rand_ret : MRet Rand := λ A a g, Ok (a, g).

#[global] Instance Rand_bind : MBind Rand := λ A B f m g,
  match m g with
  | Ok (a, g') => f a g'
  | Raise e => Raise e
  end.

Definition raise {A} (e : PyError) : Rand A := λ _, Raise e.

(** [seq[i]]: an index past the end raises [IndexError]. *)
Definition getitem {A} (l : list A) (i : nat) : Rand A :=
  match l !! i with
  | Some x => mret x
  | None => raise IndexError
  end.

Module random.

Definition randbelow (n : nat) : Rand nat :=
  λ g, Ok (if decide (n = 0) then 0 else g 0 `mod` n, λ i, g (S i)).

(** The loop of [sample]: [m] is the number of live pool items, [n - i] in
    the source, and [k] the number of iterations left. *)
Fixpoint sample_loop {A} (k m : nat) (pool : list A) : Rand (list A) :=
  match k with
  | 0 => mret []
  | S k' =>
      j ← randbelow m ;
      x ← getitem pool j ;
      y ← getitem pool (m - 1) ;
      rest ← sample_loop k' (m - 1) (<[j := y]> pool) ;
      mret (x :: rest)
  end.

(** [random.sample(population, k)]. *)
Definition sample {A} (population : list A) (k : nat) : Rand (list A) :=
  let n := length population in
  if decide (k ≤ n) then sample_loop k n population
  else raise ValueError.

(** [random.choices(population, k=k)]. *)
Fixpoint choices {A} (population : list A) (k : nat) : Rand (list A) :=
  match k with
  | 0 => mret []
  | S k' =>
      j ← randbelow (length population) ;
      x ← getitem population j ;
      rest ← choices population k' ;
      mret (x :: rest)
  end.

End random.

(** ** [sample_data] *)

(** The records the generator [sample_data] yields when it is run to its
    end; the key of the group is not used. *)
Definition sample_data {R} (_key : LabelValue) (val : list R)
    (undersample : bool) (side : nat) : Rand (list R) :=
  if undersample then random.sample val side
  else random.choices val side.

(** ** Builtins and Beam transforms used by [sample_examples] *)

(** [min(l)] and [max(l)]: the first smallest (largest) item, [ValueError]
    on an empty list. *)
Definition py_min (l : list nat) : result nat :=
  match l with
  | [] => Raise ValueError
  | x :: xs => Ok (foldl (λ m y, if decide (y < m) then y else m) x xs)
  end.

Definition py_max (l : list nat) : result nat :=
  match l with
  | [] => Raise ValueError
  | x :: xs => Ok (foldl (λ m y, if decide (m < y) then y else m) x xs)
  end.

(** [elements or [0]]. *)
Definition or_zero (elements : list nat) : list nat :=
  match elements with
  | [] => [0]
  | _ => elements
  end.

Definition find_minimum (elements : list nat) : result nat :=
  py_min (or_zero elements).

Definition find_maximum (elements : list nat) : result nat :=
  py_max (or_zero elements).

(** A result used inside a computation that draws. *)
Definition lift {A} (r : result A) : Rand A :=
  match r with
  | Ok a => mret a
  | Raise e => raise e
  end.

Section Beam.
Context {K V : Type} `{EqDecision K}.

(** The elements of a keyed collection that carry key [k]. *)
Definition with_key (k : K) (data : list (K * V)) : list (K * V) :=
  filter (λ x, x.1 = k) data.

(** [beam.combiners.Count.PerKey()]: one pair per distinct key. *)
Definition count_per_key (data : list (K * V)) : list (K * nat) :=
  (λ k, (k, length (with_key k data))) <$> remove_dups data.*1.

(** [beam.GroupByKey()]: one pair per distinct key, holding every value
    that came with the key. *)
Definition group_by_key (data : list (K * V)) : list (K * list V) :=
  (λ k, (k, (with_key k data).*2)) <$> remove_dups data.*1.

(** [beam.FlatMapTuple(fn)]: [fn] is run on every pair and the items it
    yields are collected; an exception in one call aborts the transform. *)
Fixpoint flat_map_tuple {B} (fn : K → V → Rand (list B))
    (pcoll : list (K * V)) : Rand (list B) :=
  match pcoll with
  | [] => mret []
  | (k, v) :: rest =>
      out ← fn k v;
      outs ← flat_map_tuple fn rest;
      mret (out ++ outs)
  end.
End Beam.

(** ** [sample_examples] *)

Section SampleExamples.
Context {R : Type}.
Implicit Types (data : list (LabelValue * R)) (g : Random).
Implicit Types (keep_classes : option (list string)) (undersample : bool).

(** "CountPerKey" and "FilterNullCount": the counts of the labels that are
    sampled. *)
Definition class_count data keep_classes : list (LabelValue * nat) :=
  filter (λ x, filter_pred false keep_classes x) (count_per_key data).

(** "Values" and "GetSample": the singleton side input [val]. *)
Definition get_sample (counts : list (LabelValue * nat)) undersample : result nat :=
  let sample_fn := if undersample then find_minimum else find_maximum in
  sample_fn counts.*2.

Definition target_size data keep_classes undersample : result nat :=
  get_sample (class_count data keep_classes) undersample.

(** "GroupBylabel" and "FilterNull": the groups that are sampled. *)
Definition class_groups data keep_classes : list (LabelValue * list R) :=
  filter (λ x, filter_pred false keep_classes x) (group_by_key data).

(** "Undersample": the collection [res]. *)
Definition resampled data keep_classes undersample (side : nat) : Rand (list R) :=
  flat_map_tuple (λ k v, sample_data k v undersample side)
    (class_groups data keep_classes).

(** "ExtractNull" and "NullValues": the collection [null]. *)
Definition null_values data keep_classes : list R :=
  (filter (λ x, filter_pred true keep_classes x) data).*2.

Definition sample_examples data keep_classes undersample : Rand (list R) :=
  val ← lift (target_size data keep_classes undersample);
  res ← resampled data keep_classes undersample val;
  let null := null_values data keep_classes in
  mret (res ++ null).
End SampleExamples.

(** ** [generate_elements]

    A [tf.train.Example] is its map from feature names to features; a
    feature holds at most one of a bytes list, a float list and an int64
    list, and reading a list it does not hold gives the empty list.  Python
    [bytes] are lists of bytes. *)

Inductive Feature : Type :=
  | KindNotSet
  | BytesList (value : list (list byte))
  | FloatList (value : list Z)  (* the bit patterns of the floats *)
  | Int64List (value : list Z).

Definition int64_list (f : Feature) : list Z :=
  match f with
  | Int64List value => value
  | _ => []
  end.

Definition bytes_list (f : Feature) : list (list byte) :=
  match f with
  | BytesList value => value
  | _ => []
  end.

Definition between (lo hi : N) (b : byte) : bool :=
  ((lo <=? Byte.to_N b) && (Byte.to_N b <=? hi))%N.

(** The byte sequences the strict UTF-8 codec accepts: shortest forms only,
    no surrogates, nothing above U+10FFFF. *)
Fixpoint utf8_valid (bs : list byte) : bool :=
  let cont := between 128 191 in
  match bs with
  | [] => true
  | b0 :: bs1 =>
      if between 0 127 b0 then utf8_valid bs1
      else
        match bs1 with
        | [] => false
        | b1 :: bs2 =>
            if between 194 223 b0 then cont b1 && utf8_valid bs2
            else
              match bs2 with
              | [] => false
              | b2 :: bs3 =>
                  if between 224 239 b0 then
                    (if between 224 224 b0 then between 160 191 b1
                     else if between 237 237 b0 then between 128 159 b1
                     else cont b1)
                    && cont b2 && utf8_valid bs3
                  else
                    match bs3 with
                    | [] => false
                    | b3 :: bs4 =>
                        between 240 244 b0
                        && (if between 240 240 b0 then between 144 191 b1
                            else if between 244 244 b0 then between 128 143 b1
                            else cont b1)
                        && cont b2 && cont b3 && utf8_valid bs4
                    end
              end
        end
  end.

(** [b.decode()]: the [str] whose UTF-8 encoding is [b]. *)
Definition decode (b : list byte) : result string :=
  if utf8_valid b then Ok (String.string_of_list_byte b)
  else Raise UnicodeDecodeError.

(** [parsed.features.feature[label]]: reading a name that is not in the map
    adds it with an empty feature. *)
Definition feature_getitem (parsed : gmap string Feature) (label : string) :
    Feature * gmap string Feature :=
  match parsed !! label with
  | Some f => (f, parsed)
  | None => (KindNotSet, <[label := KindNotSet]> parsed)
  end.

Definition generate_elements (x : gmap string Feature) (label : string) :
    result (LabelValue * gmap string Feature) :=
  let class_label := LNone in
  let '(f, parsed) := feature_getitem x label in
  match int64_list f with
  | z :: _ => Ok (LInt z, parsed)
  | [] =>
      match bytes_list f with
      | b :: _ =>
          match decode b with
          | Ok s => Ok (LStr s, parsed)
          | Raise e => Raise e
          end
      | [] => Ok (class_label, parsed)
      end
  end.

(** ** [read_tfexamples] and [sample]

    Reading the files and writing the result are left to TensorFlow and
    Beam; a split is the list of the examples parsed from its records. *)

#[global] Instance result_ret : MRet result := λ A a, Ok a.

#[global] Instance result_bind : MBind result := λ A B f r,
  match r with
  | Ok a => f a
  | Raise e => Raise e
  end.

(** "MapToLabel": [generate_elements] on every example of the split. *)
Definition read_tfexamples (dataset : list (gmap string Feature))
    (label : string) : result (list (LabelValue * gmap string Feature)) :=
  mapM (λ x, generate_elements x label) dataset.

(** [sample], up to the writing of [merged]. *)
Definition sample (dataset : list (gmap string Feature)) (label : string)
    (keep_classes : option (list string)) (undersample : bool) :
    Rand (list (gmap string Feature)) :=
  data ← lift (read_tfexamples dataset label);
  sample_examples data keep_classes undersample.

(** ** [Executor.Do]

    An examples artifact is its uri and its list of split names (held
    JSON-encoded by TFX).  The executor acts on the outside world through
    the Beam pipeline it runs for a sampled split and through the files it
    copies; these calls are recorded in the order they are made.  The
    directory layout of an artifact, [os.path.join], [fileio.listdir], the
    outcome of a call and the test [artifact_utils.encode_split_names]
    makes of a split name are left open.  [Do] is taken from the point
    where the execution properties are read and decoded and the two
    artifacts are at hand. *)

Record Artifact : Type := {
  uri : string;
  split_names : list string
}.

Inductive Effect : Type :=
  | RunSample (uri label : string) (shards : nat)
      (keep_classes : option (list string)) (output_dir : string)
      (undersample : bool)
  | CopyFile (src dst : string).

(** [split_data[split] = uri] on a dictionary kept in insertion order. *)
Definition dict_setitem (d : list (string * string)) (k v : string) :
    list (string * string) :=
  if bool_decide (k ∈ d.*1)
  then (λ kv, if bool_decide (kv.1 = k) then (k, v) else kv) <$> d
  else d ++ [(k, v)].

Section Executor.
Variable split_path : string → string → string.
Variable path_join : string → string → string.
Variable listdir : string → result (list string).
Variable perform : Effect → result unit.
Variable valid_split_name : string → bool.

(** [artifact_utils.encode_split_names(splits)]: [ValueError] when a name
    is not one the library accepts. *)
Definition encode_split_names (splits : list string) : result (list string) :=
  if forallb valid_split_name splits then Ok splits else Raise ValueError.

(** [artifact_utils.get_split_uri([artifact], split)]: the directory of the
    split, [ValueError] when the artifact does not list the split. *)
Definition get_split_uri (artifact : Artifact) (split : string) : result string :=
  if bool_decide (split ∈ split_names artifact)
  then Ok (split_path (uri artifact) split)
  else Raise ValueError.

(** "Fetch the input uri for each split". *)
Fixpoint fetch_split_uris (input_artifact : Artifact) (names : list string)
    (split_data : list (string * string)) : result (list (string * string)) :=
  match names with
  | [] => Ok split_data
  | split :: names' =>
      match get_split_uri input_artifact split with
      | Ok split_uri =>
          fetch_split_uris input_artifact names'
            (dict_setitem split_data split split_uri)
      | Raise e => Raise e
      end
  end.

(** The loop over [fileio.listdir(input_dir)]. *)
Fixpoint copy_files (input_dir output_dir : string) (filenames : list string)
    (log : list Effect) : list Effect * result unit :=
  match filenames with
  | [] => (log, Ok ())
  | filename :: filenames' =>
      let input_uri := path_join input_dir filename in
      let output_uri := path_join output_dir filename in
      let call := CopyFile input_uri output_uri in
      match perform call with
      | Ok _ => copy_files input_dir output_dir filenames' (log ++ [call])
      | Raise e => (log ++ [call], Raise e)
      end
  end.

(** The loop over [split_data.items()]. *)
Fixpoint process_splits (output_artifact : Artifact) (label : string)
    (undersample : bool) (splits : list string) (copy_others : bool)
    (shards : nat) (keep_classes : option (list string))
    (items : list (string * string)) (log : list Effect) :
    list Effect * result unit :=
  match items with
  | [] => (log, Ok ())
  | (split, split_uri) :: items' =>
      if bool_decide (split ∈ splits) then
        match get_split_uri output_artifact split with
        | Ok output_dir =>
            let split_dir := path_join output_dir ("Split-" +:+ split) in
            let call :=
              RunSample split_uri label shards keep_classes split_dir undersample in
            match perform call with
            | Ok _ =>
                process_splits output_artifact label undersample splits
                  copy_others shards keep_classes items' (log ++ [call])
            | Raise e => (log ++ [call], Raise e)
            end
        | Raise e => (log, Raise e)
        end
      else if copy_others then
        let input_dir := split_uri in
        match get_split_uri output_artifact split with
        | Ok output_dir =>
            match listdir input_dir with
            | Ok filenames =>
                match copy_files input_dir output_dir filenames log with
                | (log', Ok _) =>
                    process_splits output_artifact label undersample splits
                      copy_others shards keep_classes items' log'
                | (log', Raise e) => (log', Raise e)
                end
            | Raise e => (log, Raise e)
            end
        | Raise e => (log, Raise e)
        end
      else
        process_splits output_artifact label undersample splits
          copy_others shards keep_classes items' log
  end.

(** The split names [Do] gives the output artifact: those of the input
    with [copy_others], the encoded [splits] otherwise. *)
Definition output_split_names (input_artifact : Artifact)
    (splits : list string) (copy_others : bool) : result (list string) :=
  if copy_others then Ok (split_names input_artifact)
  else encode_split_names splits.

(** [Do], from the two artifacts and the execution properties: the output
    artifact, the calls made, and how it ended.  When the split names
    cannot be encoded the output artifact is left as it was and no call is
    made. *)
Definition Do (input_artifact output_artifact : Artifact) (label : string)
    (undersample : bool) (splits : list string) (copy_others : bool)
    (shards : nat) (keep_classes : option (list string)) :
    Artifact * list Effect * result unit :=
  match output_split_names input_artifact splits copy_others with
  | Ok names =>
      let output_artifact :=
        {| uri := uri output_artifact; split_names := names |} in
      match fetch_split_uris input_artifact (split_names input_artifact) [] with
      | Ok split_data =>
          let '(log, status) :=
            process_splits output_artifact label undersample splits copy_others
              shards keep_classes split_data [] in
          (output_artifact, log, status)
      | Raise e => (output_artifact, [], Raise e)
      end
  | Raise e => (output_artifact, [], Raise e)
  end.
End Executor.

(** ** Vocabulary of the statements *)

(** Post-composition on the value of a run. *)
Definition on_value {A B} (f : A → B) (r : result (A * Random)) :
    result (B * Random) :=
  match r with
  | Ok (a, g) => Ok (f a, g)
  | Raise e => Raise e
  end.

(** [drawn_at val ps out]: the records [out] are the items of [val] at the
    draw positions [ps], in the order they were drawn. *)
Definition drawn_at {R} (val : list R) (ps : list nat) (out : list R) : Prop :=
  Forall2 (λ p r, val !! p = Some r) ps out.

(** The positions [random.choices] reads from a population of [n] items. *)
Definition draws (n k : nat) (g : Random) : list nat :=
  (λ i, g i `mod` n) <$> seq 0 k.

(** A generator that replays a given list of positions. *)
Definition replay (ps : list nat) : Random := λ i, default 0 (ps !! i).

(** The distinct labels of the collection that are sampled. *)
Definition class_keys {R} (data : list (LabelValue * R))
    (keep_classes : option (list string)) : list LabelValue :=
  filter (λ k, filter_pred false keep_classes (k, ())) (remove_dups data.*1).

(** The key of every element is the label of its record, as it is for the
    collection that "MapToLabel" builds with [generate_elements]. *)
Definition labelled {R} (label_of : R → LabelValue)
    (data : list (LabelValue * R)) : Prop :=
  Forall (λ x, x.1 = label_of x.2) data.

(** The records of a collection that carry label [l]. *)
Definition records_of {R} (label_of : R → LabelValue) (l : LabelValue)
    (rs : list R) : list R :=
  filter (λ r, label_of r = l) rs.

(** The records of a collection whose label is not sampled. *)
Definition passthrough_of {R} (label_of : R → LabelValue)
    (keep_classes : option (list string)) (rs : list R) : list R :=
  filter (λ r, bucket_of (label_of r) keep_classes ≠ COUNTABLE) rs.

(** The records of a collection whose label is absent or listed in
    [keep_classes]. *)
Definition null_or_exempt_of {R} (label_of : R → LabelValue)
    (keep_classes : option (list string)) (rs : list R) : list R :=
  filter (λ r, label_of r = LNone ∨ str (label_of r) ∈ default [] keep_classes) rs.

(** The label [generate_elements] reads from a parsed example. *)
Definition class_label_of (label : string) (parsed : gmap string Feature) :
    LabelValue :=
  match generate_elements parsed label with
  | Ok (class_label, _) => class_label
  | Raise _ => LNone
  end.

(** The label feature of the example starts with bytes that are not valid
    UTF-8. *)
Definition undecodable (label : string) (x : gmap string Feature) : Prop :=
  ∃ b bs, x !! label = Some (BytesList (b :: bs)) ∧ utf8_valid b = false.

(** The input directory a [RunSample] call reads. *)
Definition sampled_uri (call : Effect) : option string :=
  match call with
  | RunSample split_uri _ _ _ _ _ => Some split_uri
  | CopyFile _ _ => None
  end.

(** The calls [Do] may make: a pipeline on the directory of an input split
    that is listed in [splits], writing under the directory of the same
    split of the output artifact with the execution properties handed on;
    or, with [copy_others], the copy of a file listed in the directory of
    an input split that is not in [splits] to the same name under the
    directory of that split of the output artifact. *)
Definition allowed_call (split_path path_join : string → string → string)
    (listdir : string → result (list string))
    (input_artifact output_artifact : Artifact) (label : string)
    (undersample : bool) (splits : list string) (copy_others : bool)
    (shards : nat) (keep_classes : option (list string)) (call : Effect) : Prop :=
  match call with
  | RunSample split_uri label' shards' keep_classes' split_dir undersample' =>
      ∃ split,
        split ∈ split_names input_artifact ∧ split ∈ splits ∧
        split_uri = split_path (uri input_artifact) split ∧
        split_dir =
          path_join (split_path (uri output_artifact) split) ("Split-" +:+ split) ∧
        label' = label ∧ shards' = shards ∧ keep_classes' = keep_classes ∧
        undersample' = undersample
  | CopyFile src dst =>
      copy_others = true ∧
      ∃ split filenames filename,
        split ∈ split_names input_artifact ∧ (split ∉ splits) ∧
        listdir (split_path (uri input_artifact) split) = Ok filenames ∧
        filename ∈ filenames ∧
        src = path_join (split_path (uri input_artifact) split) filename ∧
        dst = path_join (split_path (uri output_artifact) split) filename
  end.

(** The dictionary [split_data] of an artifact: distinct split names of the
    artifact, each with the directory of the split. *)
Definition split_uris_of (split_path : string → string → string)
    (artifact : Artifact) (d : list (string * string)) : Prop :=
  NoDup d.*1 ∧
  Forall (λ kv, kv.1 ∈ split_names artifact ∧
                kv.2 = split_path (uri artifact) kv.1) d.

(** How a run of the executor can end: well, or with the error of a
    directory listing, or with the error of one of the calls made. *)
Definition io_outcome (listdir : string → result (list string))
    (perform : Effect → result unit) (calls : list Effect)
    (status : result unit) : Prop :=
  status = Ok () ∨
  (∃ e dir, listdir dir = Raise e ∧ status = Raise e) ∨
  (∃ e call, call ∈ calls ∧ perform call = Raise e ∧ status = Raise e).

(** The distinct names of a list in the order of their first occurrence:
    the order of the keys of a dictionary filled from the list. *)
Fixpoint first_occurrences (names : list string) : list string :=
  match names with
  | [] => []
  | name :: names' => name :: filter (λ n, n ≠ name) (first_occurrences names')
  end.

(** How a run of [Do] can end: well; or, without [copy_others], with the
    [ValueError] of [encode_split_names] on a name of [splits] it does not
    accept, before any call; or as a run of the loop can end. *)
Definition do_outcome (listdir : string → result (list string))
    (perform : Effect → result unit) (valid_split_name : string → bool)
    (splits : list string) (copy_others : bool) (calls : list Effect)
    (status : result unit) : Prop :=
  (copy_others = false ∧
   (∃ split, split ∈ splits ∧ valid_split_name split = false) ∧
   calls = [] ∧ status = Raise ValueError) ∨
  ((copy_others = true ∨ forallb valid_split_name splits = true) ∧
   io_outcome listdir perform calls status).

(** ** Sample inputs *)

(** A small collection of records (numbers), keyed by their labels. *)
Definition demo_label_of (r : nat) : LabelValue :=
  if decide (r = 90) then LNone else LInt (Z.of_nat (r / 10)).

Definition demo_data : list (LabelValue * nat) :=
  (λ r, (demo_label_of r, r)) <$> [10; 20; 11; 90; 30; 12; 21; 0; 1; 22].

Definition demo_keep_classes : option (list string) := Some ["2"%string].

Definition demo_gen : Random := λ i, 7 * i + 3.

(** A collection without a sampled class. *)
Definition demo_passthrough_data : list (LabelValue * nat) :=
  [(LNone, 90); (LInt 2, 20); (LStr EmptyString, 5); (LInt 2, 21)].

(** Two records of class [1] and three records labelled with the empty
    string. *)
Definition blank_label_of (r : nat) : LabelValue :=
  if decide (r < 10) then LStr EmptyString else LInt 1.

Definition blank_data : list (LabelValue * nat) :=
  (λ r, (blank_label_of r, r)) <$> [10; 11; 0; 1; 2].

(** The class counts {A: 10, B: 30, C: 5}. *)
Definition demo_counts : list (LabelValue * nat) :=
  [(LStr "A", 10); (LStr "B", 30); (LStr "C", 5)].

Definition demo_val : list nat := [10; 11; 12; 13; 14].

(** An example whose label is text, and one whose label bytes are not
    UTF-8. *)
Definition text_example : gmap string Feature :=
  {[ "label"%string := BytesList [["c"; "a"; "t"]%byte] ]}.

Definition bad_example : gmap string Feature :=
  {[ "label"%string := BytesList [[xff]%byte] ]}.

(** The split of the end-to-end example: 100 records of class [1], 100 of
    class [2], 10 of class [3] and 5 records without a label, numbered
    from [0]. *)
Definition split_label_of (r : nat) : LabelValue :=
  if decide (r < 100) then LInt 1
  else if decide (r < 200) then LInt 2
  else if decide (r < 210) then LInt 3
  else LNone.

Definition split_data : list (LabelValue * nat) :=
  (λ r, (split_label_of r, r)) <$> seq 0 215.

(** Two splits, a directory layout and an outside world in which every call
    succeeds. *)
Definition demo_input : Artifact :=
  {| uri := "/in"; split_names := ["train"; "eval"]%string |}.

Definition demo_output : Artifact :=
  {| uri := "/out"; split_names := [] |}.

Definition demo_split_path (artifact_uri split : string) : string :=
  artifact_uri +:+ "/Split-" +:+ split.

Definition demo_path_join (a b : string) : string := a +:+ "/" +:+ b.

Definition demo_listdir (_ : string) : result (list string) :=
  Ok ["data.gz"%string].

Definition demo_perform (_ : Effect) : result unit := Ok ().

(** A test of split names that refuses one name. *)
Definition demo_valid_split_name (name : string) : bool :=
  negb (String.eqb name "bad name").

(** An input artifact that lists a split twice. *)
Definition demo_repeated_input : Artifact :=
  {| uri := "/in"; split_names := ["train"; "eval"; "train"]%string |}.

(** An example without a feature named "label". *)
Definition unlabelled_example : gmap string Feature :=
  {[ "name"%string := BytesList [["c"]%byte] ]}.

(** * Facts *)

(** ** The partition *)

Lemma in_null_vals_Some s vals :
  in_null_vals s (Some vals) = bool_decide (s ∈ vals).
Proof.
  destruct vals as [|v vals]; [|done].
  symmetry. apply bool_decide_eq_false_2, not_elem_of_nil.
Qed.

Lemma filter_null_countable {V} (item : LabelValue * V) null_vals :
  filter_null item false null_vals = Some item ↔
  bucket_of item.1 null_vals = COUNTABLE.
Proof.
  unfold filter_null, bucket_of.
  destruct (keep_label item.1), (in_null_vals (str item.1) null_vals);
    simpl; split; congruence.
Qed.

Lemma filter_null_passthrough {V} (item : LabelValue * V) null_vals :
  filter_null item true null_vals = Some item ↔
  bucket_of item.1 null_vals ≠ COUNTABLE.
Proof.
  unfold filter_null, bucket_of.
  destruct (keep_label item.1), (in_null_vals (str item.1) null_vals);
    simpl; split; congruence.
Qed.

Lemma filter_null_cases {V} (item : LabelValue * V) keep_null null_vals :
  filter_null item keep_null null_vals = Some item ∨
  filter_null item keep_null null_vals = None.
Proof. unfold filter_null. case (xorb _ _); auto. Qed.

Lemma filter_pred_negb {V} (item : LabelValue * V) null_vals :
  filter_pred true null_vals item = negb (filter_pred false null_vals item).
Proof.
  unfold filter_pred, filter_null.
  destruct (keep_label item.1), (in_null_vals (str item.1) null_vals); done.
Qed.

Lemma filter_pred_countable {V} (item : LabelValue * V) null_vals :
  filter_pred false null_vals item = true ↔
  bucket_of item.1 null_vals = COUNTABLE.
Proof.
  rewrite <- filter_null_countable. unfold filter_pred.
  destruct (filter_null_cases item false null_vals) as [-> | ->];
    split; congruence.
Qed.

Lemma keep_label_false l :
  keep_label l = false ↔ l = LNone ∨ l = LStr EmptyString.
Proof.
  destruct l as [|z|s]; simpl.
  - unfold keep_label; simpl. split; [by left | done].
  - unfold keep_label; simpl.
    destruct (Z.eqb z 0); simpl; (split; [done | intros [?|?]; done]).
  - unfold keep_label; simpl. destruct (String.eqb_spec s EmptyString); simpl.
    + subst. split; [by right | done].
    + split; [done|]. intros [?|?]; congruence.
Qed.

Lemma in_null_vals_default s null_vals :
  in_null_vals s null_vals = bool_decide (s ∈ default [] null_vals).
Proof.
  destruct null_vals as [vals|]; [apply in_null_vals_Some | done].
Qed.

(** The countable labels: present, not the empty string, not listed. *)
Lemma bucket_of_countable_iff l null_vals :
  bucket_of l null_vals = COUNTABLE ↔
  l ≠ LNone ∧ l ≠ LStr EmptyString ∧ str l ∉ default [] null_vals.
Proof.
  unfold bucket_of. rewrite in_null_vals_default.
  destruct (keep_label l) eqn:Hk; simpl.
  - assert (l ≠ LNone ∧ l ≠ LStr EmptyString) as [H1 H2].
    { split; intros ->; by vm_compute in Hk. }
    case_bool_decide as Hin; split; try done.
    by intros (_ & _ & ?).
  - apply keep_label_false in Hk. split; [done|].
    intros (H1 & H2 & _). by destruct Hk.
Qed.

(** A label that is absent or listed is not countable. *)
Lemma bucket_of_passthrough l null_vals :
  l = LNone ∨ str l ∈ default [] null_vals →
  bucket_of l null_vals ≠ COUNTABLE.
Proof.
  rewrite bucket_of_countable_iff. by intros [-> | Hin] (H1 & H2 & H3).
Qed.

(** ** Facts about the [random] module *)

Ltac unfold_rand :=
  unfold mbind, Rand_bind, mret, Rand_ret, raise, getitem in *.

Section RandomFacts.
Context {A : Type}.
Implicit Types (pool val out : list A) (g : Random).

Lemma randbelow_lt n g :
  n ≠ 0 → ∃ j g', random.randbelow n g = Ok (j, g') ∧ j < n ∧ j = g 0 `mod` n.
Proof.
  intros Hn. unfold random.randbelow. eexists _, _. split; [done|].
  destruct (decide (n = 0)); [done|].
  split; [|done]. by apply Nat.mod_upper_bound.
Qed.

(** One iteration of the pool loop removes exactly the selected item from
    the live prefix of the pool. *)
Lemma pool_step pool m j (x y : A) :
  j < m → pool !! j = Some x → pool !! (m - 1) = Some y →
  x :: take (m - 1) (<[j := y]> pool) ≡ₚ take m pool.
Proof.
  intros Hj Hx Hy.
  replace m with (S (m - 1)) at 2 by lia.
  rewrite (take_S_r _ _ _ Hy).
  destruct (decide (j < m - 1)) as [Hlt | Hge].
  - rewrite take_insert_lt by done.
    assert (take (m - 1) pool !! j = Some x) as HT
      by (by rewrite lookup_take_lt).
    rewrite insert_take_drop by (by eapply lookup_lt_Some).
    rewrite <- (take_drop_middle _ _ _ HT) at 3.
    rewrite <- !app_assoc. simpl.
    rewrite <- (Permutation_middle _ (drop _ _ ++ [y]) x).
    do 2 f_equiv. apply Permutation_cons_append.
  - assert (j = m - 1) as -> by lia.
    assert (x = y) as -> by congruence.
    rewrite take_insert. destruct (decide (m - 1 < m - 1)); [lia|].
    apply Permutation_cons_append.
Qed.

(** The pool loop draws [k] pairwise distinct items of the live prefix. *)
Lemma sample_loop_spec k : ∀ m pool g,
  k ≤ m → m ≤ length pool → NoDup (take m pool) →
  ∃ out g', random.sample_loop k m pool g = Ok (out, g') ∧
    length out = k ∧ NoDup out ∧ out ⊆ take m pool.
Proof.
  induction k as [|k IH]; intros m pool g Hk Hm Hnd.
  - exists [], g. repeat split; [constructor | apply list_subseteq_nil].
  - destruct (randbelow_lt m g) as (j & g1 & Hr & Hj & _); [lia|].
    destruct (lookup_lt_is_Some_2 pool j) as [x Hx]; [lia|].
    destruct (lookup_lt_is_Some_2 pool (m - 1)) as [y Hy]; [lia|].
    pose proof (pool_step pool m j x y Hj Hx Hy) as Hperm.
    rewrite <- Hperm in Hnd. apply NoDup_cons in Hnd as [Hnotin Hnd'].
    destruct (IH (m - 1) (<[j := y]> pool) g1) as (rest & g2 & Hrest & Hlen & Hnd2 & Hsub);
      [lia | rewrite length_insert; lia | done |].
    exists (x :: rest), g2. simpl. unfold_rand.
    rewrite Hr, Hx, Hy. unfold_rand. rewrite Hrest. split; [done|].
    split; [simpl; lia|]. split.
    + apply NoDup_cons. split; [|done]. intros Hin. by apply Hnotin, Hsub.
    + rewrite <- Hperm. intros z Hz. apply elem_of_cons in Hz as [-> | Hz].
      * apply elem_of_cons; auto.
      * apply elem_of_cons; right. by apply Hsub.
Qed.
End RandomFacts.

(** The loop does not inspect the items it moves. *)
Lemma sample_loop_fmap {A B} (f : A → B) k : ∀ m (pool : list A) g,
  random.sample_loop k m (f <$> pool) g =
  on_value (fmap f) (random.sample_loop k m pool g).
Proof.
  induction k as [|k IH]; intros m pool g; [done|].
  simpl. unfold_rand. unfold random.randbelow.
  rewrite !list_lookup_fmap.
  destruct (pool !! _) as [x|]; [|done]. simpl.
  destruct (pool !! (m - 1)) as [y|]; [|done]. simpl.
  rewrite <- list_fmap_insert, IH.
  by destruct (random.sample_loop k _ _ _) as [[rest g2]|e].
Qed.

Section Draws.
Context {R : Type}.
Implicit Types (val out : list R) (ps : list nat) (g : Random).

Lemma drawn_at_length val ps out : drawn_at val ps out → length ps = length out.
Proof. apply Forall2_length. Qed.

Lemma drawn_at_subseteq val ps out : drawn_at val ps out → out ⊆ val.
Proof.
  intros Hd r Hr. apply list_elem_of_lookup in Hr as [i Hi].
  destruct (Forall2_lookup_r _ _ _ _ _ Hd Hi) as (p & _ & Hp).
  by eapply list_elem_of_lookup_2.
Qed.

Lemma drawn_at_bound val ps out :
  drawn_at val ps out → Forall (λ p, p < length val) ps.
Proof.
  intros Hd. apply Forall_lookup. intros i p Hp.
  destruct (Forall2_lookup_l _ _ _ _ _ Hd Hp) as (r & _ & Hr).
  by eapply lookup_lt_Some.
Qed.

(** More draws than items: some item is drawn twice. *)
Lemma pigeonhole {B} (l k : list B) : l ⊆ k → length k < length l → ¬ NoDup l.
Proof.
  intros Hsub Hlen Hnd.
  pose proof (submseteq_length _ _ (NoDup_submseteq _ _ Hnd Hsub)). lia.
Qed.

Lemma positions_pigeonhole n ps :
  Forall (λ p, p < n) ps → n < length ps → ¬ NoDup ps.
Proof.
  intros Hb Hlen. apply (pigeonhole ps (seq 0 n)); [|by rewrite length_seq].
  intros p Hp. apply elem_of_seq. rewrite Forall_forall in Hb.
  specialize (Hb p Hp). lia.
Qed.

(** [random.sample] on a population that is large enough. *)
Lemma sample_spec val k g :
  k ≤ length val →
  ∃ ps out g', random.sample val k g = Ok (out, g') ∧
    length out = k ∧ NoDup ps ∧ drawn_at val ps out.
Proof.
  intros Hk. unfold random.sample. rewrite decide_True by done.
  set (n := length val). set (pool := imap pair val).
  assert (pool.*1 = seq 0 n) as Hfst.
  { unfold pool. rewrite fmap_imap.
    rewrite (imap_ext _ (λ j _, id j)) by done.
    by rewrite (imap_seq_0 val id), list_fmap_id. }
  assert (pool.*2 = val) as Hsnd.
  { unfold pool. rewrite fmap_imap.
    rewrite (imap_ext _ (const id)) by done. by rewrite imap_const, list_fmap_id. }
  assert (length pool = n) as Hlen by (unfold pool; by rewrite length_imap).
  assert (NoDup (take n pool)) as Hnd.
  { rewrite take_ge by lia. apply (NoDup_fmap_1 fst). rewrite Hfst. apply NoDup_seq. }
  destruct (sample_loop_spec k n pool g) as (prs & g1 & Hrun & Hl & _ & Hsub);
    [done | lia | done |].
  destruct (sample_loop_spec k n (seq 0 n) g) as (ps & g2 & Hps & _ & Hndps & _);
    [done | by rewrite length_seq | rewrite take_ge by (by rewrite length_seq); apply NoDup_seq |].
  rewrite <- Hfst, sample_loop_fmap, Hrun in Hps. simpl in Hps.
  injection Hps as <- <-.
  exists (prs.*1), (prs.*2), g1. rewrite <- Hsnd at 1.
  rewrite sample_loop_fmap, Hrun. simpl. split; [done|].
  split; [by rewrite length_fmap|]. split; [done|].
  apply Forall2_fmap, Forall_Forall2_diag, Forall_forall.
  intros [p r] Hin. apply Hsub in Hin. rewrite take_ge in Hin by lia.
  apply elem_of_lookup_imap in Hin as (i & y & [= -> ->] & Hy). done.
Qed.

(** [random.sample] asked for more than the population holds. *)
Lemma sample_too_large val k g :
  length val < k → random.sample val k g = Raise ValueError.
Proof. intros Hk. unfold random.sample. rewrite decide_False by lia. done. Qed.

Lemma draws_S n k g :
  draws n (S k) g = g 0 `mod` n :: draws n k (λ i, g (S i)).
Proof.
  unfold draws. simpl. f_equal.
  by rewrite <- fmap_S_seq, <- list_fmap_compose.
Qed.

(** [random.choices] on a population that is not empty: item [i] of the
    result is the population item at the [i]-th draw. *)
Lemma choices_spec val k : ∀ g,
  val ≠ [] →
  ∃ out g', random.choices val k g = Ok (out, g') ∧
    length out = k ∧ drawn_at val (draws (length val) k g) out.
Proof.
  induction k as [|k IH]; intros g Hne.
  - exists [], g. repeat split. constructor.
  - assert (length val ≠ 0) as Hn by (by destruct val).
    destruct (randbelow_lt (length val) g Hn) as (j & g1 & Hr & Hj & Hjeq).
    destruct (lookup_lt_is_Some_2 val j Hj) as [x Hx].
    destruct (IH g1 Hne) as (rest & g2 & Hrest & Hlen & Hd).
    exists (x :: rest), g2. simpl. unfold_rand.
    rewrite Hr, Hx. unfold_rand. rewrite Hrest.
    split; [done|]. split; [simpl; lia|].
    rewrite draws_S. constructor; [by rewrite <- Hjeq|].
    unfold random.randbelow in Hr. injection Hr as _ <-. done.
Qed.

Lemma draws_replay n ps :
  Forall (λ p, p < n) ps → draws n (length ps) (replay ps) = ps.
Proof.
  intros Hb. apply list_eq. intros i. unfold draws, replay.
  rewrite list_lookup_fmap.
  destruct (decide (i < length ps)) as [Hi | Hi].
  - rewrite lookup_seq_lt by done. simpl.
    destruct (lookup_lt_is_Some_2 ps i Hi) as [p Hp]. rewrite Hp. simpl.
    rewrite Forall_lookup in Hb. by rewrite Nat.mod_small by eauto.
  - rewrite lookup_seq_ge by lia. by rewrite lookup_ge_None_2 by lia.
Qed.
End Draws.

(** ** [min], [max] and the target size *)

Lemma foldl_min_spec xs : ∀ x,
  let m := foldl (λ m y, if decide (y < m) then y else m) x xs in
  m ∈ x :: xs ∧ ∀ c, c ∈ x :: xs → m ≤ c.
Proof.
  induction xs as [|y xs IH]; intros x; simpl.
  - split; [apply list_elem_of_here|]. intros c ?%list_elem_of_singleton. lia.
  - destruct (IH (if decide (y < x) then y else x)) as [Hin Hle].
    split.
    + apply elem_of_cons in Hin as [-> | Hin].
      * destruct (decide (y < x)); [apply list_elem_of_further|]; apply list_elem_of_here.
      * by do 2 apply list_elem_of_further.
    + intros c Hc.
      assert ((if decide (y < x) then y else x) ≤ c ∨ c ∈ xs) as [Hc' | Hc'].
      { apply elem_of_cons in Hc as [-> | Hc].
        - left. case_decide; lia.
        - apply elem_of_cons in Hc as [-> | Hc]; [|by right].
          left. case_decide; lia. }
      * etrans; [|exact Hc']. apply Hle, list_elem_of_here.
      * by apply Hle, list_elem_of_further.
Qed.

Lemma foldl_max_spec xs : ∀ x,
  let m := foldl (λ m y, if decide (m < y) then y else m) x xs in
  m ∈ x :: xs ∧ ∀ c, c ∈ x :: xs → c ≤ m.
Proof.
  induction xs as [|y xs IH]; intros x; simpl.
  - split; [apply list_elem_of_here|]. intros c ?%list_elem_of_singleton. lia.
  - destruct (IH (if decide (x < y) then y else x)) as [Hin Hle].
    split.
    + apply elem_of_cons in Hin as [-> | Hin].
      * destruct (decide (x < y)); [apply list_elem_of_further|]; apply list_elem_of_here.
      * by do 2 apply list_elem_of_further.
    + intros c Hc.
      assert (c ≤ (if decide (x < y) then y else x) ∨ c ∈ xs) as [Hc' | Hc'].
      { apply elem_of_cons in Hc as [-> | Hc].
        - left. case_decide; lia.
        - apply elem_of_cons in Hc as [-> | Hc]; [|by right].
          left. case_decide; lia. }
      * etrans; [exact Hc'|]. apply Hle, list_elem_of_here.
      * by apply Hle, list_elem_of_further.
Qed.

Lemma find_minimum_nil : find_minimum [] = Ok 0.
Proof. done. Qed.

Lemma find_maximum_nil : find_maximum [] = Ok 0.
Proof. done. Qed.

Lemma find_minimum_spec elements :
  elements ≠ [] →
  ∃ m, find_minimum elements = Ok m ∧ m ∈ elements ∧ ∀ c, c ∈ elements → m ≤ c.
Proof.
  destruct elements as [|x xs]; [done|]. intros _.
  eexists. split; [done|]. apply foldl_min_spec.
Qed.

Lemma find_maximum_spec elements :
  elements ≠ [] →
  ∃ m, find_maximum elements = Ok m ∧ m ∈ elements ∧ ∀ c, c ∈ elements → c ≤ m.
Proof.
  destruct elements as [|x xs]; [done|]. intros _.
  eexists. split; [done|]. apply foldl_max_spec.
Qed.

Lemma get_sample_total (counts : list (LabelValue * nat)) undersample :
  ∃ t, get_sample counts undersample = Ok t.
Proof.
  unfold get_sample. destruct (counts.*2) as [|c cs] eqn:Hc.
  - exists 0. by destruct undersample.
  - destruct undersample.
    + destruct (find_minimum_spec (c :: cs)) as (m & -> & _); eauto.
    + destruct (find_maximum_spec (c :: cs)) as (m & -> & _); eauto.
Qed.

(** ** Keys, counts and groups *)

Lemma list_filter_fmap_comm {A B} (f : A → B) (P : B → Prop)
    `{∀ x, Decision (P x)} (l : list A) :
  filter P (f <$> l) = f <$> filter (λ x, P (f x)) l.
Proof.
  induction l as [|x l IH]; [done|].
  rewrite fmap_cons, !filter_cons.
  destruct (decide (P (f x))); [rewrite fmap_cons|]; by rewrite IH.
Qed.

Lemma filter_pred_fst {V W} kn kc (k : LabelValue) (v : V) (w : W) :
  filter_pred kn kc (k, v) = filter_pred kn kc (k, w).
Proof. unfold filter_pred, filter_null. simpl. by case (xorb _ _). Qed.

Section Keys.
Context {R : Type}.
Implicit Types (data : list (LabelValue * R)).
Implicit Types (keep_classes : option (list string)).

Lemma class_count_keys data keep_classes :
  class_count data keep_classes =
  (λ k, (k, length (with_key k data))) <$> class_keys data keep_classes.
Proof.
  unfold class_count, count_per_key, class_keys.
  rewrite list_filter_fmap_comm. f_equal.
  apply list_filter_iff. intros k. simpl.
  by rewrite (filter_pred_fst _ _ _ _ ()).
Qed.

Lemma class_groups_keys data keep_classes :
  class_groups data keep_classes =
  (λ k, (k, (with_key k data).*2)) <$> class_keys data keep_classes.
Proof.
  unfold class_groups, group_by_key, class_keys.
  rewrite list_filter_fmap_comm. f_equal.
  apply list_filter_iff. intros k. simpl.
  by rewrite (filter_pred_fst _ _ _ _ ()).
Qed.

Lemma elem_of_class_keys data keep_classes k :
  k ∈ class_keys data keep_classes ↔
  k ∈ data.*1 ∧ bucket_of k keep_classes = COUNTABLE.
Proof.
  unfold class_keys. rewrite list_elem_of_filter, elem_of_remove_dups.
  rewrite <- (filter_pred_countable (k, ())). simpl.
  split; intros [? ?]; split; try done; by apply Is_true_true.
Qed.

Lemma NoDup_class_keys data keep_classes :
  NoDup (class_keys data keep_classes).
Proof. apply NoDup_filter, NoDup_remove_dups. Qed.

Lemma with_key_nonempty data k : k ∈ data.*1 → with_key k data ≠ [].
Proof.
  intros Hk Hnil. apply list_elem_of_fmap in Hk as ([k' r] & -> & Hin).
  eapply (filter_nil_not_elem_of _ _ (k', r)); [exact Hnil | done | done].
Qed.
End Keys.

(** ** Running the pipeline *)

Lemma flat_map_tuple_ok {K V B} (fn : K → V → Rand (list B))
    (P : K → V → list B → Prop) (pcoll : list (K * V)) :
  (∀ k v, (k, v) ∈ pcoll → ∀ g, ∃ out g', fn k v g = Ok (out, g') ∧ P k v out) →
  ∀ g, ∃ outs g', flat_map_tuple fn pcoll g = Ok (concat outs, g') ∧
    Forall2 (λ kv out, P kv.1 kv.2 out) pcoll outs.
Proof.
  induction pcoll as [|[k v] pcoll IH]; intros Hfn g.
  - exists [], g. split; [done | constructor].
  - destruct (Hfn k v (list_elem_of_here _ _) g) as (out & g1 & Hout & HP).
    destruct (IH (λ k' v' Hin, Hfn k' v' (list_elem_of_further _ _ _ Hin)) g1)
      as (outs & g2 & Houts & HF).
    exists (out :: outs), g2. simpl. unfold_rand. rewrite Hout, Houts.
    split; [done|]. by constructor.
Qed.

Section Runs.
Context {R : Type}.
Implicit Types (data : list (LabelValue * R)) (g : Random).
Implicit Types (keep_classes : option (list string)) (undersample : bool).

Lemma class_count_values data keep_classes :
  (class_count data keep_classes).*2 =
  (λ k, length (with_key k data)) <$> class_keys data keep_classes.
Proof. by rewrite class_count_keys, <- list_fmap_compose. Qed.

Lemma target_size_total data keep_classes undersample :
  ∃ t, target_size data keep_classes undersample = Ok t.
Proof. apply get_sample_total. Qed.

Lemma target_size_no_class data keep_classes undersample :
  class_keys data keep_classes = [] →
  target_size data keep_classes undersample = Ok 0.
Proof.
  intros Hk. unfold target_size, get_sample.
  rewrite class_count_values, Hk. by destruct undersample.
Qed.

(** Undersampling never asks a class for more records than it has. *)
Lemma target_size_le data keep_classes t k :
  target_size data keep_classes true = Ok t →
  k ∈ class_keys data keep_classes →
  t ≤ length (with_key k data).
Proof.
  unfold target_size, get_sample. rewrite class_count_values.
  intros Ht Hk.
  destruct (find_minimum_spec
    ((λ k, length (with_key k data)) <$> class_keys data keep_classes))
    as (m & Hm & _ & Hle).
  { intros Hnil%fmap_nil_inv. rewrite Hnil in Hk. by apply not_elem_of_nil in Hk. }
  rewrite Hm in Ht. injection Ht as <-.
  apply Hle. by apply (list_elem_of_fmap_2 (λ k, length (with_key k data))).
Qed.

(** Every sampled class yields exactly [t] of its own records. *)
Lemma resampled_ok data keep_classes undersample t g :
  target_size data keep_classes undersample = Ok t →
  ∃ outs g', resampled data keep_classes undersample t g = Ok (concat outs, g') ∧
    Forall2 (λ k out, length out = t ∧ out ⊆ (with_key k data).*2)
      (class_keys data keep_classes) outs.
Proof.
  intros Ht. unfold resampled.
  destruct (flat_map_tuple_ok (λ k v, sample_data k v undersample t)
    (λ k v out, length out = t ∧ out ⊆ v) (class_groups data keep_classes))
    with (g := g) as (outs & g' & Hrun & HF).
  - intros k v Hin g0. rewrite class_groups_keys in Hin.
    apply list_elem_of_fmap in Hin as (k' & [= -> ->] & Hk').
    unfold sample_data. destruct undersample.
    + destruct (sample_spec (with_key k' data).*2 t g0)
        as (ps & out & g1 & Hs & Hlen & _ & Hd).
      { rewrite length_fmap. by eapply target_size_le. }
      exists out, g1. eauto using drawn_at_subseteq.
    + destruct (choices_spec (with_key k' data).*2 t g0)
        as (out & g1 & Hs & Hlen & Hd).
      { intros Hnil%fmap_nil_inv. revert Hnil. apply with_key_nonempty.
        by apply elem_of_class_keys in Hk' as [? _]. }
      exists out, g1. eauto using drawn_at_subseteq.
  - exists outs, g'. split; [done|].
    rewrite class_groups_keys in HF. by apply Forall2_fmap_l in HF.
Qed.

Lemma sample_examples_run data keep_classes undersample t res g g' :
  target_size data keep_classes undersample = Ok t →
  resampled data keep_classes undersample t g = Ok (res, g') →
  sample_examples data keep_classes undersample g =
    Ok (res ++ null_values data keep_classes, g').
Proof.
  intros Ht Hres. unfold sample_examples. unfold_rand.
  rewrite Ht. simpl. unfold_rand. by rewrite Hres.
Qed.
End Runs.

(** ** Records and their labels *)

Lemma filter_all {A} (P : A → Prop) `{∀ x, Decision (P x)} (l : list A) :
  (∀ x, x ∈ l → P x) → filter P l = l.
Proof.
  intros HP. induction l as [|x l IH]; [done|].
  rewrite filter_cons_True by apply HP, list_elem_of_here.
  f_equal. apply IH. intros y ?. by apply HP, list_elem_of_further.
Qed.

Lemma filter_none {A} (P : A → Prop) `{∀ x, Decision (P x)} (l : list A) :
  (∀ x, x ∈ l → ¬ P x) → filter P l = [].
Proof.
  intros HP. induction l as [|x l IH]; [done|].
  rewrite filter_cons_False by apply HP, list_elem_of_here.
  apply IH. intros y ?. by apply HP, list_elem_of_further.
Qed.

Lemma elem_of_concat {A} (x : A) (ls : list (list A)) :
  x ∈ concat ls → ∃ l, x ∈ l ∧ l ∈ ls.
Proof.
  induction ls as [|l ls IH]; simpl.
  - by intros ?%not_elem_of_nil.
  - intros [Hx | Hx]%elem_of_app.
    + exists l. split; [done | apply list_elem_of_here].
    + destruct (IH Hx) as (l' & ? & ?). exists l'.
      split; [done | by apply list_elem_of_further].
Qed.

Section Labelled.
Context {R : Type} (label_of : R → LabelValue).
Implicit Types (data : list (LabelValue * R)) (rs out : list R).
Implicit Types (keep_classes : option (list string)).

Lemma with_key_label data k r :
  labelled label_of data → r ∈ (with_key k data).*2 → label_of r = k.
Proof.
  intros Hl Hr. apply list_elem_of_fmap in Hr as ([k' r'] & -> & Hin).
  apply list_elem_of_filter in Hin as [Hk Hin]. simpl in *.
  unfold labelled in Hl. rewrite Forall_forall in Hl.
  specialize (Hl _ Hin). simpl in Hl. congruence.
Qed.

Lemma records_of_app l rs rs' :
  records_of label_of l (rs ++ rs') =
  records_of label_of l rs ++ records_of label_of l rs'.
Proof. apply filter_app. Qed.

Lemma records_of_all l rs :
  (∀ r, r ∈ rs → label_of r = l) → records_of label_of l rs = rs.
Proof. apply filter_all. Qed.

Lemma records_of_none l rs :
  (∀ r, r ∈ rs → label_of r ≠ l) → records_of label_of l rs = [].
Proof. apply filter_none. Qed.

(** Among the resampled groups, label [l] owns the records of its own
    group and no other. *)
Lemma records_of_groups data t l keys : ∀ outs,
  labelled label_of data → NoDup keys →
  Forall2 (λ k out, length out = t ∧ out ⊆ (with_key k data).*2) keys outs →
  length (records_of label_of l (concat outs)) =
    if decide (l ∈ keys) then t else 0.
Proof.
  intros outs Hl Hnd HF. induction HF as [|k out keys outs [Hlen Hsub] HF IH].
  - by rewrite decide_False by apply not_elem_of_nil.
  - apply NoDup_cons in Hnd as [Hk Hnd]. specialize (IH Hnd).
    simpl. rewrite (records_of_app l out (concat outs)), length_app, IH.
    assert (∀ r, r ∈ out → label_of r = k) as Hout
      by (intros r Hr; eapply with_key_label; eauto).
    destruct (decide (l = k)) as [-> | Hne].
    + rewrite (records_of_all k out Hout), Hlen.
      destruct (decide (k ∈ keys)); [done|].
      destruct (decide (k ∈ k :: keys)) as [|Hn]; [lia|].
      exfalso. apply Hn, list_elem_of_here.
    + rewrite (records_of_none l out) by (intros r Hr; by rewrite (Hout r Hr)).
      simpl. destruct (decide (l ∈ keys)) as [Hin | Hin].
      * rewrite decide_True; [done|]. by apply list_elem_of_further.
      * rewrite decide_False; [done|]. by intros [?|?]%elem_of_cons.
Qed.

Lemma null_values_bucket data keep_classes r :
  labelled label_of data → r ∈ null_values data keep_classes →
  bucket_of (label_of r) keep_classes ≠ COUNTABLE.
Proof.
  intros Hl Hr. apply list_elem_of_fmap in Hr as ([k r'] & -> & Hin).
  apply list_elem_of_filter in Hin as [Hp Hin]. simpl.
  unfold labelled in Hl. rewrite Forall_forall in Hl.
  specialize (Hl _ Hin). simpl in Hl. rewrite <- Hl.
  apply (filter_null_passthrough (k, r')).
  unfold filter_pred in Hp.
  by destruct (filter_null_cases (k, r') true keep_classes) as [-> | Hn];
    [|rewrite Hn in Hp].
Qed.

(** The collection [null] holds exactly the records of the input whose
    label is not sampled. *)
Lemma null_values_passthrough data keep_classes :
  labelled label_of data →
  null_values data keep_classes = passthrough_of label_of keep_classes data.*2.
Proof.
  intros Hl. unfold null_values, passthrough_of.
  rewrite list_filter_fmap_comm. f_equal.
  induction Hl as [|[k r] data Hk Hl IH]; [done|]. simpl in Hk. subst k.
  rewrite !filter_cons, IH. simpl.
  destruct (decide (bucket_of (label_of r) keep_classes ≠ COUNTABLE)) as [Hb | Hb].
  - apply (filter_null_passthrough (label_of r, r)) in Hb.
    rewrite decide_True; [done|]. unfold filter_pred. by rewrite Hb.
  - rewrite decide_False; [done|]. unfold filter_pred. intros Hp. apply Hb.
    apply (filter_null_passthrough (label_of r, r)).
    by destruct (filter_null_cases (label_of r, r) true keep_classes)
      as [-> | Hn]; [|rewrite Hn in Hp].
Qed.

Lemma resampled_bucket data keep_classes t keys outs r :
  labelled label_of data →
  (∀ k, k ∈ keys → bucket_of k keep_classes = COUNTABLE) →
  Forall2 (λ k out, length out = t ∧ out ⊆ (with_key k data).*2) keys outs →
  r ∈ concat outs →
  label_of r ∈ keys ∧ bucket_of (label_of r) keep_classes = COUNTABLE.
Proof.
  intros Hl Hkeys HF Hr.
  apply elem_of_concat in Hr as (out & Hr & Hout).
  apply list_elem_of_lookup in Hout as [i Hi].
  destruct (Forall2_lookup_r _ _ _ _ _ HF Hi) as (k & Hk & _ & Hsub).
  rewrite (with_key_label data k r Hl (Hsub _ Hr)).
  apply list_elem_of_lookup_2 in Hk. auto.
Qed.
End Labelled.

(** ** The collection built by "MapToLabel" *)

(** Reading the label again from the parsed example gives the same label. *)
Lemma generate_elements_parsed x label class_label parsed :
  generate_elements x label = Ok (class_label, parsed) →
  generate_elements parsed label = Ok (class_label, parsed).
Proof.
  unfold generate_elements, feature_getitem.
  destruct (x !! label) as [f|] eqn:Hx.
  - destruct (int64_list f) as [|z zs] eqn:Hz.
    + destruct (bytes_list f) as [|b bs] eqn:Hb.
      * intros [= <- <-]. by rewrite Hx, Hz, Hb.
      * destruct (decode b) as [s'|e] eqn:Hd; [|done].
        intros [= <- <-]. by rewrite Hx, Hz, Hb, Hd.
    + intros [= <- <-]. by rewrite Hx, Hz.
  - simpl. intros [= <- <-]. by rewrite lookup_insert_eq.
Qed.

(** The keys of the collection are the labels of its examples. *)
Lemma read_tfexamples_labelled dataset label : ∀ data,
  read_tfexamples dataset label = Ok data →
  labelled (class_label_of label) data.
Proof.
  unfold read_tfexamples.
  induction dataset as [|x dataset IH]; intros data; simpl.
  - intros [= <-]. constructor.
  - unfold mbind, result_bind at 1.
    destruct (generate_elements x label) as [[l parsed]|e] eqn:Hx; [|done].
    unfold mbind, result_bind at 1.
    destruct (mapM _ dataset) as [rest|e]; [|done].
    intros [= <-]. constructor; [|by apply IH].
    simpl. unfold class_label_of.
    by rewrite (generate_elements_parsed x label l parsed Hx).
Qed.

(** ** The examples of the specification *)

(** Counts {A: 10, B: 30, C: 5}: undersampling targets 5, oversampling 30. *)
Example mode_correctness_example :
  get_sample demo_counts true = Ok 5 ∧ get_sample demo_counts false = Ok 30.
Proof. split; reflexivity. Qed.

(** Labels {1: 100, 2: 100, 3: 10, none: 5}, class "2" kept aside,
    undersampling: 10 records of class [1], 10 of class [3], the 100 of
    class [2] and the 5 without a label, 125 in all. *)
Example end_to_end_example :
  ∃ merged g',
    sample_examples split_data (Some ["2"%string]) true demo_gen = Ok (merged, g') ∧
    length merged = 125 ∧
    length (records_of split_label_of (LInt 1) merged) = 10 ∧
    length (records_of split_label_of (LInt 3) merged) = 10 ∧
    length (records_of split_label_of (LInt 2) merged) = 100 ∧
    length (records_of split_label_of LNone merged) = 5 ∧
    NoDup merged.
Proof.
  eexists _, _. split; [by vm_compute|].
  repeat split; try by vm_compute.
  apply (bool_decide_unpack _). by vm_compute.
Qed.

(** * Properties of the sampler *)

(** ** The pipeline *)

(** The size invariant in terms of the buckets. *)
Lemma class_sizes_by_bucket {R} (label_of : R → LabelValue)
    (data : list (LabelValue * R)) keep_classes undersample g :
  labelled label_of data →
  ∃ t merged g',
    target_size data keep_classes undersample = Ok t ∧
    sample_examples data keep_classes undersample g = Ok (merged, g') ∧
    (∀ l, bucket_of l keep_classes = COUNTABLE → l ∈ label_of <$> merged →
       length (records_of label_of l merged) = t) ∧
    (∀ l, bucket_of l keep_classes = COUNTABLE → l ∈ data.*1 →
       length (records_of label_of l merged) = t) ∧
    ((∀ l, l ∈ data.*1 → bucket_of l keep_classes ≠ COUNTABLE) → t = 0).
Proof.
  intros Hl.
  destruct (target_size_total data keep_classes undersample) as [t Ht].
  destruct (resampled_ok data keep_classes undersample t g Ht)
    as (outs & g' & Hres & HF).
  exists t, (concat outs ++ null_values data keep_classes), g'.
  split; [done|]. split; [by apply (sample_examples_run _ _ _ t)|].
  assert (∀ k, k ∈ class_keys data keep_classes →
    bucket_of k keep_classes = COUNTABLE) as Hkeys
    by (by intros k [_ ?]%elem_of_class_keys).
  assert (∀ l, l ∈ class_keys data keep_classes →
    length (records_of label_of l (concat outs ++ null_values data keep_classes)) = t)
    as Hsize.
  { intros l Hin. rewrite records_of_app, length_app.
    rewrite (records_of_groups label_of data t l _ outs Hl
      (NoDup_class_keys data keep_classes) HF).
    rewrite decide_True by done.
    rewrite records_of_none; [simpl; lia|].
    intros r Hr Heq. apply (null_values_bucket label_of) in Hr; [|done].
    apply Hr. rewrite Heq. by apply Hkeys. }
  split; [|split].
  - intros l Hb Hin. apply Hsize.
    apply list_elem_of_fmap in Hin as (r & -> & Hr).
    apply elem_of_app in Hr as [Hr | Hr].
    + by destruct (resampled_bucket label_of data keep_classes t _ outs r Hl Hkeys HF Hr).
    + by apply (null_values_bucket label_of) in Hr.
  - intros l Hb Hin. apply Hsize. by apply elem_of_class_keys.
  - intros Hnone.
    assert (class_keys data keep_classes = []) as Hnil.
    { destruct (class_keys data keep_classes) as [|k ks] eqn:Hk; [done|].
      assert (k ∈ class_keys data keep_classes) as Hin
        by (rewrite Hk; apply list_elem_of_here).
      apply elem_of_class_keys in Hin as [Hin Hb]. by destruct (Hnone k Hin). }
    rewrite (target_size_no_class data keep_classes undersample Hnil) in Ht.
    by injection Ht.
Qed.

(** C1, the size invariant as stated fails: with two records of class [1]
    and three records labelled with the empty string, a label that is
    present and not exempt, the target size is [2] and the output holds the
    three records of the empty label. *)
Lemma size_invariant_counterexample :
  labelled blank_label_of blank_data ∧
  LStr EmptyString ≠ LNone ∧
  (str (LStr EmptyString) ∉ default [] (None : option (list string))) ∧
  target_size blank_data None true = Ok 2 ∧
  ∃ merged g',
    sample_examples blank_data None true demo_gen = Ok (merged, g') ∧
    LStr EmptyString ∈ blank_label_of <$> merged ∧
    length (records_of blank_label_of (LStr EmptyString) merged) = 3 ∧
    length (records_of blank_label_of (LStr EmptyString) merged) ≠ 2.
Proof.
  split; [unfold labelled, blank_data; repeat constructor|].
  split; [done|]. split; [apply not_elem_of_nil|]. split; [done|].
  eexists _, _. split; [by vm_compute|].
  split; [|done]. do 2 apply list_elem_of_further. apply list_elem_of_here.
Qed.

(** C1 as amended, size invariant.  On every keyed collection whose keys are
    the labels of its records, and for every run of the generator,
    [sample_examples] returns a merged collection in which every label that
    is present, not the empty string and not listed in [keep_classes] owns
    exactly [target_size] records, whether it is looked up in the output or
    in the input; when every label of the input is absent, empty or listed,
    the target size is [0]. *)
Theorem size_invariant {R} (label_of : R → LabelValue)
    (data : list (LabelValue * R)) keep_classes undersample g :
  labelled label_of data →
  ∃ t merged g',
    target_size data keep_classes undersample = Ok t ∧
    sample_examples data keep_classes undersample g = Ok (merged, g') ∧
    (∀ l, l ≠ LNone → l ≠ LStr EmptyString → str l ∉ default [] keep_classes →
       l ∈ label_of <$> merged →
       length (records_of label_of l merged) = t) ∧
    (∀ l, l ≠ LNone → l ≠ LStr EmptyString → str l ∉ default [] keep_classes →
       l ∈ data.*1 →
       length (records_of label_of l merged) = t) ∧
    ((∀ l, l ∈ data.*1 →
        l = LNone ∨ l = LStr EmptyString ∨ str l ∈ default [] keep_classes) → t = 0).
Proof.
  intros Hl.
  destruct (class_sizes_by_bucket label_of data keep_classes undersample g Hl)
    as (t & merged & g' & Ht & Hrun & Hout & Hin & Hzero).
  exists t, merged, g'. do 2 (split; [done|]).
  split; [|split].
  - intros l H1 H2 H3. by apply Hout, bucket_of_countable_iff.
  - intros l H1 H2 H3. by apply Hin, bucket_of_countable_iff.
  - intros Hnone. apply Hzero. intros l Hl'.
    rewrite bucket_of_countable_iff. intros (H1 & H2 & H3).
    by destruct (Hnone l Hl') as [?|[?|?]].
Qed.

Lemma size_invariant_witness :
  labelled demo_label_of demo_data ∧
  ∃ t merged g',
    target_size demo_data demo_keep_classes true = Ok t ∧
    sample_examples demo_data demo_keep_classes true demo_gen = Ok (merged, g') ∧
    (∀ l, l ≠ LNone → l ≠ LStr EmptyString → str l ∉ default [] demo_keep_classes →
       l ∈ demo_label_of <$> merged →
       length (records_of demo_label_of l merged) = t) ∧
    (∀ l, l ≠ LNone → l ≠ LStr EmptyString → str l ∉ default [] demo_keep_classes →
       l ∈ demo_data.*1 →
       length (records_of demo_label_of l merged) = t) ∧
    ((∀ l, l ∈ demo_data.*1 →
        l = LNone ∨ l = LStr EmptyString ∨ str l ∈ default [] demo_keep_classes) → t = 0).
Proof.
  assert (labelled demo_label_of demo_data) as Hl
    by (unfold labelled, demo_data; repeat constructor).
  split; [exact Hl|].
  exact (size_invariant demo_label_of demo_data demo_keep_classes true demo_gen Hl).
Defined.

(** C6, passthrough invariant.  The merged collection is the resampler's
    collection [res] followed by the records of the input whose label is not
    sampled, nothing else; so the records of the output whose label is not
    sampled, and among them those whose label is absent or listed in
    [keep_classes], are with their multiplicities exactly those of the
    input. *)
Theorem passthrough_invariant {R} (label_of : R → LabelValue)
    (data : list (LabelValue * R)) keep_classes undersample g :
  labelled label_of data →
  ∃ t res merged g',
    target_size data keep_classes undersample = Ok t ∧
    resampled data keep_classes undersample t g = Ok (res, g') ∧
    sample_examples data keep_classes undersample g = Ok (merged, g') ∧
    merged ≡ₚ res ++ passthrough_of label_of keep_classes data.*2 ∧
    passthrough_of label_of keep_classes merged ≡ₚ
      passthrough_of label_of keep_classes data.*2 ∧
    null_or_exempt_of label_of keep_classes merged ≡ₚ
      null_or_exempt_of label_of keep_classes data.*2.
Proof.
  intros Hl.
  destruct (target_size_total data keep_classes undersample) as [t Ht].
  destruct (resampled_ok data keep_classes undersample t g Ht)
    as (outs & g' & Hres & HF).
  exists t, (concat outs), (concat outs ++ null_values data keep_classes), g'.
  split; [done|]. split; [done|].
  split; [by apply (sample_examples_run _ _ _ t)|].
  rewrite (null_values_passthrough label_of data keep_classes Hl).
  assert (∀ r, r ∈ concat outs →
    bucket_of (label_of r) keep_classes = COUNTABLE) as Hres_bucket.
  { intros r Hr.
    eapply (resampled_bucket label_of data keep_classes t); eauto.
    by intros k [_ ?]%elem_of_class_keys. }
  split; [done|]. split.
  - unfold passthrough_of at 1. rewrite filter_app.
    rewrite (filter_none _ (concat outs)).
    + simpl. rewrite filter_all; [done|].
      by intros r [? _]%list_elem_of_filter.
    + intros r Hr Hb. by apply Hb, Hres_bucket.
  - unfold null_or_exempt_of at 1. rewrite filter_app.
    rewrite (filter_none _ (concat outs)).
    + simpl. unfold passthrough_of. rewrite list_filter_filter.
      unfold null_or_exempt_of. erewrite list_filter_iff; [done|].
      intros r. simpl. split; [by intros [? _]|].
      intros HQ. split; [done|]. by apply bucket_of_passthrough.
    + intros r Hr HQ.
      by apply (bucket_of_passthrough _ keep_classes HQ), Hres_bucket.
Qed.

Lemma passthrough_invariant_witness :
  labelled demo_label_of demo_data ∧
  ∃ t res merged g',
    target_size demo_data demo_keep_classes false = Ok t ∧
    resampled demo_data demo_keep_classes false t demo_gen = Ok (res, g') ∧
    sample_examples demo_data demo_keep_classes false demo_gen = Ok (merged, g') ∧
    merged ≡ₚ res ++ passthrough_of demo_label_of demo_keep_classes demo_data.*2 ∧
    passthrough_of demo_label_of demo_keep_classes merged ≡ₚ
      passthrough_of demo_label_of demo_keep_classes demo_data.*2 ∧
    null_or_exempt_of demo_label_of demo_keep_classes merged ≡ₚ
      null_or_exempt_of demo_label_of demo_keep_classes demo_data.*2.
Proof.
  assert (labelled demo_label_of demo_data) as Hl
    by (unfold labelled, demo_data; repeat constructor).
  split; [exact Hl|].
  exact (passthrough_invariant demo_label_of demo_data demo_keep_classes false
           demo_gen Hl).
Defined.

(** The degenerate case of [sample_examples].  When every record of the
    collection it is given has a null or an exempt label, no class is
    counted, the target size is [0], no draw is made and the merged
    collection is that collection, record for record. *)
Theorem degenerate_case {R} (data : list (LabelValue * R))
    keep_classes undersample g :
  (∀ x, x ∈ data → bucket_of x.1 keep_classes ≠ COUNTABLE) →
  class_count data keep_classes = [] ∧
  target_size data keep_classes undersample = Ok 0 ∧
  ∃ merged,
    sample_examples data keep_classes undersample g = Ok (merged, g) ∧
    merged ≡ₚ data.*2.
Proof.
  intros Hpass.
  assert (class_keys data keep_classes = []) as Hnil.
  { destruct (class_keys data keep_classes) as [|k ks] eqn:Hk; [done|].
    assert (k ∈ class_keys data keep_classes) as Hin
      by (rewrite Hk; apply list_elem_of_here).
    apply elem_of_class_keys in Hin as [Hin Hb].
    apply list_elem_of_fmap in Hin as (x & -> & Hx). by destruct (Hpass x Hx). }
  split; [by rewrite class_count_keys, Hnil|].
  pose proof (target_size_no_class data keep_classes undersample Hnil) as Ht.
  split; [done|].
  exists (null_values data keep_classes). split.
  - apply (sample_examples_run data keep_classes undersample 0 [] g g Ht).
    unfold resampled. by rewrite class_groups_keys, Hnil.
  - unfold null_values. rewrite filter_all; [done|].
    intros x Hx. apply Is_true_true. unfold filter_pred.
    by rewrite (proj2 (filter_null_passthrough x keep_classes) (Hpass x Hx)).
Qed.

Lemma degenerate_case_witness :
  (∀ x, x ∈ demo_passthrough_data → bucket_of x.1 demo_keep_classes ≠ COUNTABLE) ∧
  class_count demo_passthrough_data demo_keep_classes = [] ∧
  target_size demo_passthrough_data demo_keep_classes true = Ok 0 ∧
  ∃ merged,
    sample_examples demo_passthrough_data demo_keep_classes true demo_gen =
      Ok (merged, demo_gen) ∧
    merged ≡ₚ demo_passthrough_data.*2.
Proof.
  assert (∀ x, x ∈ demo_passthrough_data →
    bucket_of x.1 demo_keep_classes ≠ COUNTABLE) as Hpass.
  { apply Forall_forall. unfold demo_passthrough_data.
    repeat constructor; by vm_compute. }
  split; [exact Hpass|].
  exact (degenerate_case demo_passthrough_data demo_keep_classes true demo_gen Hpass).
Defined.

(** ** The partitioner *)

(** C3, the policy as stated fails: the empty string is a label that is
    present and, with an empty exempt set, not exempt, yet [filter_null]
    does not keep it among the sampled labels and keeps it among the
    passthrough ones. *)
Lemma partitioner_policy_counterexample :
  spec_bucket_of (LStr EmptyString) [] = COUNTABLE ∧
  filter_null (LStr EmptyString, ()) false (Some []) = None ∧
  filter_null (LStr EmptyString, ()) true (Some []) = Some (LStr EmptyString, ()) ∧
  bucket_of (LStr EmptyString) (Some []) = NULL.
Proof. repeat split. Qed.

(** C3 as amended, the partition policy of [filter_null].  A label that is
    absent or the empty string is null; any other label is exempt when its
    string form is listed in [null_vals] and countable when it is not.  The
    countable labels are those the filter keeps with [keep_null=False], the
    null and exempt ones those it keeps with [keep_null=True]; the integer
    [0] is countable unless "0" is listed. *)
Theorem partitioner_policy {V} (l : LabelValue) (v : V)
    (null_vals : option (list string)) :
  (l = LNone ∨ l = LStr EmptyString → bucket_of l null_vals = NULL) ∧
  (l ≠ LNone → l ≠ LStr EmptyString → str l ∈ default [] null_vals →
     bucket_of l null_vals = EXEMPT) ∧
  (l ≠ LNone → l ≠ LStr EmptyString → str l ∉ default [] null_vals →
     bucket_of l null_vals = COUNTABLE) ∧
  (bucket_of l null_vals = COUNTABLE ↔
     filter_null (l, v) false null_vals = Some (l, v)) ∧
  (bucket_of l null_vals ≠ COUNTABLE ↔
     filter_null (l, v) true null_vals = Some (l, v)) ∧
  ("0"%string ∉ default [] null_vals → bucket_of (LInt 0) null_vals = COUNTABLE).
Proof.
  assert (∀ l', l' ≠ LNone → l' ≠ LStr EmptyString → keep_label l' = true) as Hkeep.
  { intros l' H1 H2. destruct (keep_label l') eqn:Hk; [done|].
    apply keep_label_false in Hk as [?|?]; done. }
  repeat split.
  - intros Hl. apply keep_label_false in Hl. unfold bucket_of. by rewrite Hl.
  - intros H1 H2 Hin. unfold bucket_of. rewrite (Hkeep l H1 H2). simpl.
    rewrite in_null_vals_default. by rewrite bool_decide_eq_true_2.
  - intros H1 H2 Hin. unfold bucket_of. rewrite (Hkeep l H1 H2). simpl.
    rewrite in_null_vals_default. by rewrite bool_decide_eq_false_2.
  - by intros ?%(filter_null_countable (l, v)).
  - by intros ?%(filter_null_countable (l, v)).
  - by intros ?%(filter_null_passthrough (l, v)).
  - by intros ?%(filter_null_passthrough (l, v)).
  - intros Hin. unfold bucket_of. simpl.
    rewrite in_null_vals_default. by rewrite bool_decide_eq_false_2.
Qed.

Lemma partitioner_policy_witness :
  bucket_of (LInt 0) (Some ["2"%string]) = COUNTABLE ∧
  bucket_of (LInt 2) (Some ["2"%string]) = EXEMPT ∧
  bucket_of (LStr EmptyString) (Some ["2"%string]) = NULL ∧
  filter_null (LInt 0, 7) false (Some ["2"%string]) = Some (LInt 0, 7).
Proof.
  pose proof (partitioner_policy (LInt 0) 7 (Some ["2"%string]))
    as (_ & _ & _ & Hc & _ & H0).
  pose proof (partitioner_policy (LInt 2) 7 (Some ["2"%string]))
    as (_ & He & _).
  pose proof (partitioner_policy (LStr EmptyString) 7 (Some ["2"%string]))
    as (Hn & _).
  assert ("0"%string ∉ default [] (Some ["2"%string])) as Hnot
    by (by intros ?%list_elem_of_singleton).
  split; [exact (H0 Hnot)|]. split.
  - apply He; [done | done |]. apply list_elem_of_here.
  - split; [apply Hn; by right|]. apply Hc, (H0 Hnot).
Defined.

(** C10, the empty string.  A record whose label is the empty string is
    dropped by the filter of the sampled labels and kept by the filter of
    the passthrough records, whatever [keep_classes] holds, because the
    label is falsy and only the integer [0] is kept regardless; in
    [sample_examples] the label is never counted or grouped for sampling
    and its records all reach the collection [null]. *)
Theorem empty_label_passthrough {R} (r : R) (data : list (LabelValue * R))
    (keep_classes : option (list string)) :
  bool_of (LStr EmptyString) = false ∧ eq_zero (LStr EmptyString) = false ∧
  eq_zero (LInt 0) = true ∧
  filter_null (LStr EmptyString, r) false keep_classes = None ∧
  filter_null (LStr EmptyString, r) true keep_classes = Some (LStr EmptyString, r) ∧
  bucket_of (LStr EmptyString) keep_classes = NULL ∧
  (LStr EmptyString ∉ (class_count data keep_classes).*1) ∧
  (LStr EmptyString ∉ (class_groups data keep_classes).*1) ∧
  (with_key (LStr EmptyString) data).*2 ⊆ null_values data keep_classes.
Proof.
  assert (LStr EmptyString ∉ class_keys data keep_classes) as Hkeys
    by (by intros [_ ?]%elem_of_class_keys).
  do 3 (split; [done|]).
  do 3 (split; [unfold filter_null, bucket_of; simpl; try done;
                by destruct (in_null_vals EmptyString keep_classes)|]).
  split; [|split].
  - rewrite class_count_keys, <- list_fmap_compose. by rewrite list_fmap_id.
  - rewrite class_groups_keys, <- list_fmap_compose. by rewrite list_fmap_id.
  - intros r' Hr'. apply list_elem_of_fmap in Hr' as ([k r0] & -> & Hin).
    apply list_elem_of_filter in Hin as [Hk Hin]. simpl in Hk. subst k.
    apply (list_elem_of_fmap_2' snd _ (LStr EmptyString, r0)); [|done].
    apply list_elem_of_filter. split; [|done].
    unfold filter_pred, filter_null. simpl.
    by destruct (in_null_vals EmptyString keep_classes).
Qed.

(** ** The target size *)

(** C2, target size selector.  On the counts of the sampled classes,
    [get_sample] returns [0] when there is none; otherwise it returns one of
    the counts, the least when undersampling and the greatest when
    oversampling. *)
Theorem target_size_selector (counts : list (LabelValue * nat)) :
  (counts = [] → ∀ undersample, get_sample counts undersample = Ok 0) ∧
  (counts ≠ [] →
     (∃ t, get_sample counts true = Ok t ∧ t ∈ counts.*2 ∧
           ∀ c, c ∈ counts.*2 → t ≤ c) ∧
     (∃ t, get_sample counts false = Ok t ∧ t ∈ counts.*2 ∧
           ∀ c, c ∈ counts.*2 → c ≤ t)).
Proof.
  split.
  - intros -> undersample. by destruct undersample.
  - intros Hne.
    assert (counts.*2 ≠ []) as Hne' by (by intros ?%fmap_nil_inv).
    split; unfold get_sample.
    + apply find_minimum_spec, Hne'.
    + apply find_maximum_spec, Hne'.
Qed.

Lemma target_size_selector_witness :
  get_sample [] true = Ok 0 ∧ get_sample [] false = Ok 0 ∧
  (∃ t, get_sample demo_counts true = Ok t ∧ t ∈ demo_counts.*2 ∧
        ∀ c, c ∈ demo_counts.*2 → t ≤ c) ∧
  (∃ t, get_sample demo_counts false = Ok t ∧ t ∈ demo_counts.*2 ∧
        ∀ c, c ∈ demo_counts.*2 → c ≤ t).
Proof.
  split; [exact (proj1 (target_size_selector []) eq_refl true)|].
  split; [exact (proj1 (target_size_selector []) eq_refl false)|].
  apply (proj2 (target_size_selector demo_counts)). discriminate.
Defined.

(** ** The resampler *)

(** C4, undersampling.  Asked for [side] records of a group that holds at
    least as many, [sample_data] with [undersample=True] returns, whatever
    the generator draws, exactly [side] records: the group's records at
    [side] pairwise distinct positions. *)
Theorem reduce_without_replacement {R} (key : LabelValue) (val : list R)
    (side : nat) (g : Random) :
  side ≤ length val →
  ∃ ps out g',
    sample_data key val true side g = Ok (out, g') ∧
    length out = side ∧ NoDup ps ∧ drawn_at val ps out.
Proof. intros Hside. by apply sample_spec. Qed.

Lemma reduce_without_replacement_witness :
  3 ≤ length demo_val ∧
  ∃ ps out g',
    sample_data (LInt 1) demo_val true 3 demo_gen = Ok (out, g') ∧
    length out = 3 ∧ NoDup ps ∧ drawn_at demo_val ps out.
Proof.
  assert (3 ≤ length demo_val) as Hside by (simpl; lia).
  split; [exact Hside|].
  exact (reduce_without_replacement (LInt 1) demo_val 3 demo_gen Hside).
Defined.

(** C5, oversampling.  On a group that is not empty, [sample_data] with
    [undersample=False] returns exactly [side] records, each the group's
    record at the position of its own draw; when the group is shorter than
    [side] a position, and so a record, is repeated.  Every list of [side]
    positions of the group, with or without repetitions and whatever the
    size of the group, is the outcome of some generator. *)
Theorem expand_with_replacement {R} (key : LabelValue) (val : list R)
    (side : nat) :
  val ≠ [] →
  (∀ g, ∃ out g',
     sample_data key val false side g = Ok (out, g') ∧
     length out = side ∧
     drawn_at val (draws (length val) side g) out ∧
     (length val < side →
        ¬ NoDup (draws (length val) side g) ∧ ¬ NoDup out)) ∧
  (∀ ps, length ps = side → Forall (λ p, p < length val) ps →
     ∃ out g',
       sample_data key val false side (replay ps) = Ok (out, g') ∧
       drawn_at val ps out).
Proof.
  intros Hne. split.
  - intros g. destruct (choices_spec val side g Hne) as (out & g' & Hrun & Hlen & Hd).
    exists out, g'. do 3 (split; [done|]). intros Hlt. split.
    + apply (positions_pigeonhole (length val)).
      * by eapply drawn_at_bound.
      * rewrite (drawn_at_length _ _ _ Hd). lia.
    + apply (pigeonhole out val); [by eapply drawn_at_subseteq | lia].
  - intros ps Hlen Hb.
    destruct (choices_spec val side (replay ps) Hne) as (out & g' & Hrun & _ & Hd).
    exists out, g'. split; [done|].
    by rewrite <- Hlen, draws_replay in Hd.
Qed.

Lemma expand_with_replacement_witness :
  demo_val ≠ [] ∧
  (∀ g, ∃ out g',
     sample_data (LInt 1) demo_val false 8 g = Ok (out, g') ∧
     length out = 8 ∧
     drawn_at demo_val (draws (length demo_val) 8 g) out ∧
     (length demo_val < 8 →
        ¬ NoDup (draws (length demo_val) 8 g) ∧ ¬ NoDup out)) ∧
  (∀ ps, length ps = 8 → Forall (λ p, p < length demo_val) ps →
     ∃ out g',
       sample_data (LInt 1) demo_val false 8 (replay ps) = Ok (out, g') ∧
       drawn_at demo_val ps out).
Proof.
  assert (demo_val ≠ []) as Hne by discriminate.
  split; [exact Hne|].
  exact (expand_with_replacement (LInt 1) demo_val 8 Hne).
Defined.

(** C8, over-request.  Asked for more records than the group holds,
    [sample_data] with [undersample=True] raises the [ValueError] of
    [random.sample]; it returns no shortened sample. *)
Theorem reduce_over_request {R} (key : LabelValue) (val : list R)
    (side : nat) (g : Random) :
  length val < side →
  sample_data key val true side g = Raise ValueError.
Proof. intros Hside. by apply sample_too_large. Qed.

Lemma reduce_over_request_witness :
  length demo_val < 6 ∧
  sample_data (LInt 1) demo_val true 6 demo_gen = Raise ValueError.
Proof.
  assert (length demo_val < 6) as Hside by (simpl; lia).
  split; [exact Hside|].
  exact (reduce_over_request (LInt 1) demo_val 6 demo_gen Hside).
Defined.

(** ** The label extractor *)

Lemma feature_getitem_Some (x : gmap string Feature) label f :
  x !! label = Some f → feature_getitem x label = (f, x).
Proof. intros H. unfold feature_getitem. by rewrite H. Qed.

Lemma feature_getitem_None (x : gmap string Feature) label :
  x !! label = None →
  feature_getitem x label = (KindNotSet, <[label := KindNotSet]> x).
Proof. intros H. unfold feature_getitem. by rewrite H. Qed.

(** C7, the contract as stated fails: the label field of [bad_example]
    holds a bytes list that is not empty, and no label is returned, the
    decoding of its first item raises. *)
Lemma label_extractor_counterexample :
  bad_example !! "label"%string = Some (BytesList [[xff]%byte]) ∧
  generate_elements bad_example "label" = Raise UnicodeDecodeError.
Proof. split; by vm_compute. Qed.

(** C7 as amended, the label extractor.  When the named feature holds an
    int64 list that is not empty the label is its first item; otherwise,
    when it holds a bytes list that is not empty, the label is the string
    decoded from the first item if that item is valid UTF-8, and the
    decoding error is raised if it is not; otherwise the label is absent.
    A name that is not in the example raises nothing: the label is absent
    (and the example gains an empty feature of that name). *)
Theorem label_extractor_contract (x : gmap string Feature) (label : string) :
  (∀ z zs, int64_list (feature_getitem x label).1 = z :: zs →
     generate_elements x label = Ok (LInt z, x)) ∧
  (∀ b bs, int64_list (feature_getitem x label).1 = [] →
     bytes_list (feature_getitem x label).1 = b :: bs →
     utf8_valid b = true →
     generate_elements x label = Ok (LStr (String.string_of_list_byte b), x)) ∧
  (∀ b bs, int64_list (feature_getitem x label).1 = [] →
     bytes_list (feature_getitem x label).1 = b :: bs →
     utf8_valid b = false →
     generate_elements x label = Raise UnicodeDecodeError) ∧
  (int64_list (feature_getitem x label).1 = [] →
     bytes_list (feature_getitem x label).1 = [] →
     generate_elements x label = Ok (LNone, (feature_getitem x label).2)) ∧
  (x !! label = None →
     generate_elements x label = Ok (LNone, <[label := KindNotSet]> x)).
Proof.
  unfold generate_elements.
  destruct (x !! label) as [f|] eqn:Hx.
  - rewrite (feature_getitem_Some x label f Hx). simpl.
    split; [|split; [|split; [|split]]].
    + by intros z zs ->.
    + intros b bs -> -> Hv. unfold decode. by rewrite Hv.
    + intros b bs -> -> Hv. unfold decode. by rewrite Hv.
    + by intros -> ->.
    + done.
  - rewrite (feature_getitem_None x label Hx). simpl.
    split; [|split; [|split; [|split]]]; done.
Qed.

Lemma label_extractor_contract_witness :
  generate_elements text_example "label" = Ok (LStr "cat", text_example) ∧
  generate_elements text_example "name" =
    Ok (LNone, <["name"%string := KindNotSet]> text_example).
Proof.
  pose proof (label_extractor_contract text_example "label")
    as (_ & Htext & _).
  pose proof (label_extractor_contract text_example "name")
    as (_ & _ & _ & _ & Hmissing).
  split.
  - apply (Htext ["c"; "a"; "t"]%byte []); reflexivity.
  - apply Hmissing. reflexivity.
Defined.

(** * Further properties of the sampling code *)

(** ** Samples as sub-multisets *)

(** [random.sample] returns a sub-multiset of the population: no item is
    returned more often than the population holds it. *)
Lemma sample_submseteq {R} (val : list R) k g :
  k ≤ length val →
  ∃ out g', random.sample val k g = Ok (out, g') ∧
    length out = k ∧ out ⊆+ val.
Proof.
  intros Hk. unfold random.sample. rewrite decide_True by done.
  set (n := length val). set (pool := imap pair val).
  assert (pool.*2 = val) as Hsnd.
  { unfold pool. rewrite fmap_imap.
    rewrite (imap_ext _ (const id)) by done. by rewrite imap_const, list_fmap_id. }
  assert (length pool = n) as Hlen by (unfold pool; by rewrite length_imap).
  assert (NoDup pool) as Hnd.
  { apply (NoDup_fmap_1 fst). unfold pool. rewrite fmap_imap.
    rewrite (imap_ext _ (λ j _, id j)) by done.
    rewrite (imap_seq_0 val id), list_fmap_id. apply NoDup_seq. }
  destruct (sample_loop_spec k n pool g) as (prs & g1 & Hrun & Hl & Hndp & Hsub);
    [done | lia | by rewrite take_ge by lia |].
  rewrite take_ge in Hsub by lia.
  exists (prs.*2), g1. rewrite <- Hsnd at 1.
  rewrite sample_loop_fmap, Hrun. simpl. split; [done|].
  split; [by rewrite length_fmap|].
  rewrite <- Hsnd. apply fmap_submseteq. by apply NoDup_submseteq.
Qed.

Lemma concat_submseteq {A} (ls ks : list (list A)) :
  Forall2 submseteq ls ks → concat ls ⊆+ concat ks.
Proof.
  induction 1 as [|l k ls ks Hlk _ IH]; [done|].
  simpl. by apply submseteq_app.
Qed.

Lemma concat_subseteq {A} (ls : list (list A)) (k : list A) :
  Forall (λ l, l ⊆ k) ls → concat ls ⊆ k.
Proof.
  induction 1 as [|l ls Hl _ IH]; simpl.
  - apply list_subseteq_nil.
  - intros x [?|?]%elem_of_app; auto.
Qed.

Lemma length_concat_const {A} (ls : list (list A)) (t : nat) :
  Forall (λ l, length l = t) ls → length (concat ls) = length ls * t.
Proof.
  induction 1 as [|l ls Hl _ IH]; [done|].
  simpl. rewrite length_app, IH, Hl. lia.
Qed.

Lemma fmap_concat {A B} (f : A → B) (ls : list (list A)) :
  fmap (M:=list) f (concat ls) =
  concat (fmap (M:=list) (fmap (M:=list) f) ls).
Proof.
  induction ls as [|l ls IH]; [done|].
  simpl. by rewrite fmap_app, IH.
Qed.

(** ** Grouping by key loses nothing *)

Section Grouping.
Context {K V : Type} `{EqDecision K}.
Implicit Types (data : list (K * V)) (ks : list K).

Lemma with_key_filter (P : K * V → Prop) `{∀ x, Decision (P x)} data k :
  (∀ x, x.1 = k → P x) →
  with_key k (filter P data) = with_key k data.
Proof.
  intros HP. unfold with_key. rewrite list_filter_filter.
  apply list_filter_iff. intros x. split; [by intros [? _]|].
  intros Hx. split; [done | by apply HP].
Qed.

(** The groups of pairwise distinct keys that cover the collection are a
    rearrangement of the collection. *)
Lemma groups_cover ks : ∀ data,
  NoDup ks → (∀ x, x ∈ data → x.1 ∈ ks) →
  concat ((λ k, with_key k data) <$> ks) ≡ₚ data.
Proof.
  induction ks as [|k ks IH]; intros data Hnd Hcover.
  - destruct data as [|x data]; [done|].
    by destruct (not_elem_of_nil _ (Hcover x (list_elem_of_here _ _))).
  - apply NoDup_cons in Hnd as [Hk Hnd]. rewrite fmap_cons. cbn [concat].
    etrans; [|apply (filter_app_complement (λ x, x.1 = k) data)].
    apply Permutation_app; [done|].
    assert ((λ k', with_key k' data) <$> ks =
            (λ k', with_key k' (filter (λ x, ¬ x.1 = k) data)) <$> ks) as ->.
    { apply list_fmap_ext. intros i k' Hk'. symmetry. apply with_key_filter.
      intros x Hx Heq. apply Hk. rewrite <- Heq, Hx.
      by eapply list_elem_of_lookup_2. }
    apply IH; [done|].
    intros x [Hne Hx]%list_elem_of_filter.
    apply Hcover in Hx. by apply elem_of_cons in Hx as [?|?].
Qed.
End Grouping.

(** ** The two branches of [sample_examples] *)

Section Branches.
Context {R : Type}.
Implicit Types (data : list (LabelValue * R)) (g : Random).
Implicit Types (keep_classes : option (list string)) (undersample : bool).

Lemma class_groups_values data keep_classes :
  (class_groups data keep_classes).*2 =
  (λ k, (with_key k data).*2) <$> class_keys data keep_classes.
Proof. by rewrite class_groups_keys, <- list_fmap_compose. Qed.

Lemma null_values_complement data keep_classes :
  null_values data keep_classes =
  (filter (λ x, ¬ filter_pred false keep_classes x) data).*2.
Proof.
  unfold null_values. f_equal. apply list_filter_iff. intros x.
  rewrite filter_pred_negb.
  destruct (filter_pred false keep_classes x); simpl; tauto.
Qed.

(** The records of the sampled groups are the records that the filter of
    the sampled labels keeps. *)
Lemma class_groups_cover data keep_classes :
  concat (class_groups data keep_classes).*2 ≡ₚ
  (filter (λ x, filter_pred false keep_classes x) data).*2.
Proof.
  rewrite class_groups_values.
  change ((λ k, (with_key k data).*2) <$> class_keys data keep_classes)
    with ((fmap snd ∘ (λ k, with_key k data)) <$> class_keys data keep_classes).
  rewrite (list_fmap_compose (λ k, with_key k data) (fmap snd)).
  rewrite <- fmap_concat. apply fmap_Permutation.
  set (sampled := filter (λ x, filter_pred false keep_classes x) data).
  assert ((λ k, with_key k data) <$> class_keys data keep_classes =
          (λ k, with_key k sampled) <$> class_keys data keep_classes) as ->.
  { apply list_fmap_ext. intros i k Hk. symmetry. apply with_key_filter.
    intros [k' r] Hx. simpl in Hx. subst k'.
    apply list_elem_of_lookup_2, elem_of_class_keys in Hk as [_ Hb].
    apply Is_true_true. by apply (filter_pred_countable (k, r)). }
  apply groups_cover; [apply NoDup_class_keys|].
  intros [k r] [Hp Hin]%list_elem_of_filter. simpl.
  apply elem_of_class_keys. split.
  - by apply (list_elem_of_fmap_2' fst _ (k, r)).
  - apply (filter_pred_countable (k, r)). by apply Is_true_true.
Qed.

Lemma target_size_ge data keep_classes t k :
  target_size data keep_classes false = Ok t →
  k ∈ class_keys data keep_classes →
  length (with_key k data) ≤ t.
Proof.
  unfold target_size, get_sample. rewrite class_count_values.
  intros Ht Hk.
  destruct (find_maximum_spec
    ((λ k, length (with_key k data)) <$> class_keys data keep_classes))
    as (m & Hm & _ & Hle).
  { intros Hnil%fmap_nil_inv. rewrite Hnil in Hk. by apply not_elem_of_nil in Hk. }
  rewrite Hm in Ht. injection Ht as <-.
  apply Hle. by apply (list_elem_of_fmap_2 (λ k, length (with_key k data))).
Qed.

(** Undersampling draws a sub-multiset of every sampled group. *)
Lemma resampled_submseteq data keep_classes t g :
  target_size data keep_classes true = Ok t →
  ∃ outs g', resampled data keep_classes true t g = Ok (concat outs, g') ∧
    Forall2 (λ k out, length out = t ∧ out ⊆+ (with_key k data).*2)
      (class_keys data keep_classes) outs.
Proof.
  intros Ht. unfold resampled.
  destruct (flat_map_tuple_ok (λ k v, sample_data k v true t)
    (λ k v out, length out = t ∧ out ⊆+ v) (class_groups data keep_classes))
    with (g := g) as (outs & g' & Hrun & HF).
  - intros k v Hin g0. rewrite class_groups_keys in Hin.
    apply list_elem_of_fmap in Hin as (k' & [= -> ->] & Hk').
    unfold sample_data. apply sample_submseteq.
    rewrite length_fmap. by eapply target_size_le.
  - exists outs, g'. split; [done|].
    rewrite class_groups_keys in HF. by apply Forall2_fmap_l in HF.
Qed.
End Branches.

Lemma groups_and_null_cover {R} (data : list (LabelValue * R))
    (keep_classes : option (list string)) :
  concat (class_groups data keep_classes).*2 ++ null_values data keep_classes
    ≡ₚ data.*2.
Proof.
  rewrite class_groups_cover, null_values_complement, <- fmap_app.
  apply fmap_Permutation, filter_app_complement.
Qed.

(** X1, nothing is lost before sampling.  The records of the groups that
    are handed to [sample_data], together with the records of the collection
    [null], are the records of the input, each as often as the input holds
    it: the two filters split the input without loss or overlap. *)
Theorem grouping_keeps_every_record {R} (data : list (LabelValue * R))
    (keep_classes : option (list string)) :
  concat (class_groups data keep_classes).*2 ++ null_values data keep_classes
    ≡ₚ data.*2.
Proof. apply groups_and_null_cover. Qed.

(** X2, undersampling never duplicates.  With [undersample=True],
    [sample_examples] succeeds on every input and every run of the
    generator, and its output is a sub-multiset of the input records: no
    record occurs more often in the output than in the input. *)
Theorem undersample_submultiset {R} (data : list (LabelValue * R))
    (keep_classes : option (list string)) (g : Random) :
  ∃ merged g',
    sample_examples data keep_classes true g = Ok (merged, g') ∧
    merged ⊆+ data.*2 ∧ length merged ≤ length data.
Proof.
  destruct (target_size_total data keep_classes true) as [t Ht].
  destruct (resampled_submseteq data keep_classes t g Ht)
    as (outs & g' & Hres & HF).
  exists (concat outs ++ null_values data keep_classes), g'.
  split; [by apply (sample_examples_run _ _ _ t)|].
  assert (concat outs ++ null_values data keep_classes ⊆+ data.*2) as Hsub.
  { rewrite <- (groups_and_null_cover data keep_classes).
    apply submseteq_skips_r, concat_submseteq.
    rewrite class_groups_values. apply Forall2_fmap_r.
    apply Forall2_flip. eapply Forall2_impl; [exact HF|]. by intros k out [_ ?]. }
  split; [done|].
  apply submseteq_length in Hsub. by rewrite length_fmap in Hsub.
Qed.

Lemma length_groups_le {R} (data : list (LabelValue * R)) (t : nat) ks :
  (∀ k, k ∈ ks → length (with_key k data) ≤ t) →
  length (concat ((λ k, (with_key k data).*2) <$> ks)) ≤ length ks * t.
Proof.
  induction ks as [|k ks IH]; intros Hle; [done|].
  rewrite fmap_cons. cbn [concat]. rewrite length_app, length_fmap.
  pose proof (Hle k (list_elem_of_here _ _)).
  pose proof (IH (λ k' Hk', Hle k' (list_elem_of_further _ _ _ Hk'))).
  simpl. lia.
Qed.

(** X3, oversampling never invents and never shrinks.  With
    [undersample=False], [sample_examples] succeeds on every input and every
    run of the generator; every record of the output is a record of the
    input, and the output holds at least as many records as the input. *)
Theorem oversample_never_shrinks {R} (data : list (LabelValue * R))
    (keep_classes : option (list string)) (g : Random) :
  ∃ merged g',
    sample_examples data keep_classes false g = Ok (merged, g') ∧
    merged ⊆ data.*2 ∧ length data ≤ length merged.
Proof.
  destruct (target_size_total data keep_classes false) as [t Ht].
  destruct (resampled_ok data keep_classes false t g Ht)
    as (outs & g' & Hres & HF).
  exists (concat outs ++ null_values data keep_classes), g'.
  split; [by apply (sample_examples_run _ _ _ t)|]. split.
  - intros r [Hr | Hr]%elem_of_app.
    + apply elem_of_concat in Hr as (out & Hr & Hout).
      apply list_elem_of_lookup in Hout as [i Hi].
      destruct (Forall2_lookup_r _ _ _ _ _ HF Hi) as (k & _ & _ & Hsub).
      apply Hsub, list_elem_of_fmap in Hr as (x & -> & Hx).
      apply list_elem_of_filter in Hx as [_ Hx].
      by apply list_elem_of_fmap_2.
    + apply list_elem_of_fmap in Hr as (x & -> & Hx).
      apply list_elem_of_filter in Hx as [_ Hx].
      by apply list_elem_of_fmap_2.
  - rewrite <- (length_fmap snd data).
    rewrite <- (groups_and_null_cover data keep_classes).
    rewrite !length_app. apply Nat.add_le_mono_r.
    rewrite class_groups_values.
    etrans; [apply (length_groups_le data t)|].
    + intros k Hk. by eapply target_size_ge.
    + rewrite (length_concat_const outs t).
      * by rewrite (Forall2_length _ _ _ HF).
      * eapply Forall2_Forall_r; [exact HF|].
        apply Forall_forall. by intros k _ out [? _].
Qed.

(** X4, the size of the output.  In both modes the output of
    [sample_examples] holds the target size once for every counted class,
    plus the records of the collection [null]. *)
Theorem merged_size {R} (data : list (LabelValue * R))
    (keep_classes : option (list string)) (undersample : bool) (g : Random) :
  ∃ t merged g',
    target_size data keep_classes undersample = Ok t ∧
    sample_examples data keep_classes undersample g = Ok (merged, g') ∧
    length merged =
      length (class_count data keep_classes) * t +
      length (null_values data keep_classes).
Proof.
  destruct (target_size_total data keep_classes undersample) as [t Ht].
  destruct (resampled_ok data keep_classes undersample t g Ht)
    as (outs & g' & Hres & HF).
  exists t, (concat outs ++ null_values data keep_classes), g'.
  split; [done|]. split; [by apply (sample_examples_run _ _ _ t)|].
  rewrite length_app, class_count_keys, length_fmap. f_equal.
  rewrite (length_concat_const outs t).
  - by rewrite (Forall2_length _ _ _ HF).
  - eapply Forall2_Forall_r; [exact HF|].
    apply Forall_forall. by intros k _ out [? _].
Qed.

(** X5, the target size is zero only without a class.  In both modes the
    target size is [0] exactly when no class is counted; with a counted
    class every class is asked for at least one record. *)
Theorem target_size_zero_iff {R} (data : list (LabelValue * R))
    (keep_classes : option (list string)) (undersample : bool) :
  ∃ t, target_size data keep_classes undersample = Ok t ∧
       (t = 0 ↔ class_count data keep_classes = []).
Proof.
  destruct (class_keys data keep_classes) as [|k ks] eqn:Hkeys.
  - exists 0. split; [by apply target_size_no_class|].
    by rewrite class_count_keys, Hkeys.
  - assert (∀ c, c ∈ (class_count data keep_classes).*2 → 1 ≤ c) as Hpos.
    { intros c. rewrite class_count_values.
      intros (k' & -> & Hk')%list_elem_of_fmap.
      apply elem_of_class_keys in Hk' as [Hk' _].
      pose proof (with_key_nonempty data k' Hk').
      destruct (with_key k' data); [done | simpl; lia]. }
    assert ((class_count data keep_classes).*2 ≠ []) as Hne
      by (rewrite class_count_values, Hkeys; done).
    assert (class_count data keep_classes ≠ []) as Hne'
      by (by intros Hnil; rewrite Hnil in Hne).
    unfold target_size, get_sample. destruct undersample.
    + destruct (find_minimum_spec _ Hne) as (m & Hm & Hin & _).
      exists m. split; [done|]. specialize (Hpos m Hin). split; [lia | done].
    + destruct (find_maximum_spec _ Hne) as (m & Hm & Hin & _).
      exists m. split; [done|]. specialize (Hpos m Hin). split; [lia | done].
Qed.

(** ** Edge cases of [sample_data] *)

(** X6, a group sampled at its own size.  Asked for as many records as the
    group holds, as it is for the smallest class, [sample_data] with
    [undersample=True] returns the whole group in some order. *)
Theorem undersample_whole_group {R} (key : LabelValue) (val : list R)
    (g : Random) :
  ∃ out g',
    sample_data key val true (length val) g = Ok (out, g') ∧ out ≡ₚ val.
Proof.
  destruct (sample_submseteq val (length val) g) as (out & g' & Hrun & Hlen & Hsub);
    [done|].
  exists out, g'. split; [done|].
  apply submseteq_length_Permutation; [done | lia].
Qed.

(** X7, oversampling may lose records.  With a generator that always draws
    the first position, [sample_data] with [undersample=False] returns
    [side] copies of the first record of the group: no record of a group is
    sure to survive oversampling. *)
Theorem oversample_no_coverage {R} (key : LabelValue) (x : R) (xs : list R)
    (side : nat) :
  ∃ g',
    sample_data key (x :: xs) false side (λ _, 0) = Ok (replicate side x, g').
Proof.
  unfold sample_data.
  induction side as [|side [g' IH]]; [by eexists|].
  exists g'. simpl. unfold_rand. unfold random.randbelow. simpl.
  rewrite Nat.sub_diag. simpl.
  change (λ i : nat, 0) with (λ _ : nat, 0). by rewrite IH.
Qed.

(** ** Reading the examples *)

Lemma generate_elements_cases x label :
  (undecodable label x ∧ generate_elements x label = Raise UnicodeDecodeError) ∨
  (¬ undecodable label x ∧ ∃ e, generate_elements x label = Ok e).
Proof.
  unfold undecodable, generate_elements, feature_getitem.
  destruct (x !! label) as [f|] eqn:Hx.
  - destruct f as [|[|b bs]|fl|[|z zs]]; simpl;
      try (right; split; [by intros (b' & bs' & [= ?] & _) | by eexists]).
    unfold decode. destruct (utf8_valid b) eqn:Hv.
    + right. split; [|by eexists].
      intros (b' & bs' & [= <- <-] & Hv'). congruence.
    + left. split; [by exists b, bs | done].
  - right. split; [by intros (b' & bs' & [= ?] & _) | by eexists].
Qed.

Lemma undecodable_cases dataset label :
  Exists (undecodable label) dataset ∨ ¬ Exists (undecodable label) dataset.
Proof.
  induction dataset as [|x dataset [IH | IH]].
  - right. by intros ?%Exists_nil.
  - left. by apply Exists_cons_tl.
  - destruct (generate_elements_cases x label) as [[Hbad _] | [Hgood _]].
    + left. by apply Exists_cons_hd.
    + right. by intros [?|?]%Exists_cons.
Qed.

Lemma read_tfexamples_cons x dataset label :
  read_tfexamples (x :: dataset) label =
  match generate_elements x label with
  | Ok e =>
      match read_tfexamples dataset label with
      | Ok es => Ok (e :: es)
      | Raise err => Raise err
      end
  | Raise err => Raise err
  end.
Proof.
  unfold read_tfexamples. simpl. unfold mbind, result_bind at 1.
  destruct (generate_elements x label); [|done].
  unfold mbind, result_bind at 1. by destruct (mapM _ dataset).
Qed.

Lemma read_tfexamples_ok dataset label :
  ¬ Exists (undecodable label) dataset →
  ∃ data, read_tfexamples dataset label = Ok data ∧
    Forall2 (λ x e, generate_elements x label = Ok e) dataset data.
Proof.
  induction dataset as [|x dataset IH]; intros Hgood.
  - exists []. split; [done | constructor].
  - rewrite read_tfexamples_cons.
    destruct (generate_elements_cases x label) as [[Hbad _] | [_ [e He]]].
    { destruct Hgood. by apply Exists_cons_hd. }
    destruct IH as (data & Hdata & HF).
    { intros Hbad. apply Hgood. by apply Exists_cons_tl. }
    exists (e :: data). rewrite He, Hdata. split; [done | by constructor].
Qed.

Lemma read_tfexamples_raise dataset label :
  Exists (undecodable label) dataset →
  read_tfexamples dataset label = Raise UnicodeDecodeError.
Proof.
  induction 1 as [x dataset Hbad | x dataset _ IH]; rewrite read_tfexamples_cons.
  - destruct (generate_elements_cases x label) as [[_ ->] | [Hgood _]]; done.
  - rewrite IH.
    by destruct (generate_elements_cases x label) as [[_ ->] | [_ [e ->]]].
Qed.

Lemma sample_examples_total {R} (data : list (LabelValue * R))
    keep_classes undersample g :
  ∃ merged g', sample_examples data keep_classes undersample g = Ok (merged, g').
Proof.
  destruct (target_size_total data keep_classes undersample) as [t Ht].
  destruct (resampled_ok data keep_classes undersample t g Ht)
    as (outs & g' & Hres & _).
  eexists _, g'. by apply (sample_examples_run _ _ _ t).
Qed.

Lemma string_of_list_byte_empty (b : list byte) :
  String.string_of_list_byte b = EmptyString ↔ b = [].
Proof. by destruct b. Qed.

(** X8, extracting twice.  Reading the label again from the example that
    [generate_elements] returns gives the same label and the same example;
    the returned example has the features of the one read, and is the one
    read whenever that one holds the label feature. *)
Theorem generate_elements_stable (x : gmap string Feature) (label : string)
    (class_label : LabelValue) (parsed : gmap string Feature) :
  generate_elements x label = Ok (class_label, parsed) →
  generate_elements parsed label = Ok (class_label, parsed) ∧
  (∀ name, name ≠ label → parsed !! name = x !! name) ∧
  (is_Some (x !! label) → parsed = x).
Proof.
  intros Hrun. split; [by apply (generate_elements_parsed x)|].
  revert Hrun. unfold generate_elements, feature_getitem.
  destruct (x !! label) as [f|] eqn:Hx.
  - intros Hrun. assert (parsed = x) as ->; [|done].
    destruct (int64_list f); [|by injection Hrun].
    destruct (bytes_list f) as [|b bs]; [by injection Hrun|].
    destruct (decode b); [by injection Hrun | done].
  - simpl. intros [= <- <-]. split.
    + intros name Hne. by rewrite lookup_insert_ne.
    + by intros [? ?].
Qed.

Lemma generate_elements_stable_witness :
  generate_elements unlabelled_example "label" =
    Ok (LNone, <["label"%string := KindNotSet]> unlabelled_example) ∧
  <["label"%string := KindNotSet]> unlabelled_example ≠ unlabelled_example ∧
  generate_elements (<["label"%string := KindNotSet]> unlabelled_example) "label" =
    Ok (LNone, <["label"%string := KindNotSet]> unlabelled_example) ∧
  (∀ name, name ≠ "label"%string →
     <["label"%string := KindNotSet]> unlabelled_example !! name =
     unlabelled_example !! name) ∧
  (is_Some (unlabelled_example !! "label"%string) →
     <["label"%string := KindNotSet]> unlabelled_example = unlabelled_example).
Proof.
  assert (generate_elements unlabelled_example "label" =
    Ok (LNone, <["label"%string := KindNotSet]> unlabelled_example))
    as Hrun by reflexivity.
  split; [exact Hrun|]. split.
  - intros Heq.
    assert (<["label"%string := KindNotSet]> unlabelled_example !! "label"%string
            = unlabelled_example !! "label"%string) as Hl by (by rewrite Heq).
    rewrite lookup_insert_eq in Hl. discriminate Hl.
  - exact (generate_elements_stable unlabelled_example "label" LNone
             (<["label"%string := KindNotSet]> unlabelled_example) Hrun).
Defined.

(** X9, which examples are sampled.  The label that [generate_elements]
    returns is handed to [sample_data] exactly when the label feature is an
    int64 list whose first item, in decimal, is not listed in
    [keep_classes], or a bytes list whose first item is not empty and, as
    text, not listed; every other example passes through. *)
Theorem sampled_examples (x : gmap string Feature) (label : string)
    (keep_classes : option (list string))
    (class_label : LabelValue) (parsed : gmap string Feature) :
  generate_elements x label = Ok (class_label, parsed) →
  (filter_null (class_label, parsed) false keep_classes =
     Some (class_label, parsed) ↔
   (∃ z zs, x !! label = Some (Int64List (z :: zs)) ∧
      pretty z ∉ default [] keep_classes) ∨
   (∃ b bs, x !! label = Some (BytesList (b :: bs)) ∧ b ≠ [] ∧
      String.string_of_list_byte b ∉ default [] keep_classes)).
Proof.
  intros Hrun. rewrite filter_null_countable, bucket_of_countable_iff. simpl.
  revert Hrun. unfold generate_elements, feature_getitem.
  destruct (x !! label) as [f|] eqn:Hx.
  - destruct f as [|[|b bs]|fl|[|z zs]]; simpl.
    + intros [= <- <-]. split; [by intros [? _]|].
      by intros [(? & ? & [= ?] & _) | (? & ? & [= ?] & _)].
    + intros [= <- <-]. split; [by intros [? _]|].
      by intros [(? & ? & [= ?] & _) | (? & ? & [= ?] & _)].
    + unfold decode. destruct (utf8_valid b); [|done].
      intros [= <- <-]. simpl. split.
      * intros (_ & Hne & Hin). right. exists b, bs.
        split; [done|]. split; [|done].
        intros ->. by apply Hne.
      * intros [(? & ? & [= ?] & _) | (b' & bs' & [= <- <-] & Hne & Hin)].
        split; [done|]. split; [|done].
        intros [= Heq]. by apply Hne, string_of_list_byte_empty.
    + intros [= <- <-]. split; [by intros [? _]|].
      by intros [(? & ? & [= ?] & _) | (? & ? & [= ?] & _)].
    + intros [= <- <-]. split; [by intros [? _]|].
      by intros [(? & ? & [= ?] & _) | (? & ? & [= ?] & _)].
    + intros [= <- <-]. simpl. split.
      * intros (_ & _ & Hin). left. by exists z, zs.
      * intros [(z' & zs' & [= <- <-] & Hin) | (? & ? & [= ?] & _)].
        done.
  - simpl. intros [= <- <-]. split; [by intros [? _]|].
    by intros [(? & ? & [= ?] & _) | (? & ? & [= ?] & _)].
Qed.

Lemma sampled_examples_witness :
  generate_elements text_example "label" = Ok (LStr "cat", text_example) ∧
  filter_null (LStr "cat", text_example) false (Some ["dog"%string]) =
    Some (LStr "cat", text_example).
Proof.
  assert (generate_elements text_example "label" = Ok (LStr "cat", text_example))
    as Hrun by reflexivity.
  split; [exact Hrun|].
  apply (sampled_examples text_example "label" (Some ["dog"%string])
           (LStr "cat") text_example Hrun).
  right. exists ["c"; "a"; "t"]%byte, []. split; [reflexivity|].
  split; [discriminate|]. by intros ?%list_elem_of_singleton.
Defined.

(** X10, reading a split.  [read_tfexamples] raises, with
    [UnicodeDecodeError], exactly when the label feature of some example
    starts with bytes that are not valid UTF-8; otherwise it pairs every
    example, in order, with the label [generate_elements] reads from it. *)
Theorem read_tfexamples_result (dataset : list (gmap string Feature))
    (label : string) :
  (Exists (undecodable label) dataset ∧
   read_tfexamples dataset label = Raise UnicodeDecodeError) ∨
  (¬ Exists (undecodable label) dataset ∧
   ∃ data, read_tfexamples dataset label = Ok data ∧
     Forall2 (λ x e, generate_elements x label = Ok e) dataset data ∧
     labelled (class_label_of label) data).
Proof.
  destruct (undecodable_cases dataset label) as [Hbad' | Hgood'].
  - left. split; [done | by apply read_tfexamples_raise].
  - right. split; [done|].
    destruct (read_tfexamples_ok dataset label Hgood') as (data & Hdata & HF).
    exists data. split; [done|]. split; [done|].
    by apply (read_tfexamples_labelled dataset).
Qed.

(** X11, the errors of [sample].  Reading and sampling a split raises only
    when reading does, with [UnicodeDecodeError]; otherwise it returns what
    [sample_examples] returns on the collection read, which never raises:
    the errors of [random.sample] and [random.choices] cannot occur. *)
Theorem sample_errors (dataset : list (gmap string Feature)) (label : string)
    (keep_classes : option (list string)) (undersample : bool) (g : Random) :
  (Exists (undecodable label) dataset ∧
   sample dataset label keep_classes undersample g = Raise UnicodeDecodeError) ∨
  (¬ Exists (undecodable label) dataset ∧
   ∃ data merged g',
     read_tfexamples dataset label = Ok data ∧
     sample_examples data keep_classes undersample g = Ok (merged, g') ∧
     sample dataset label keep_classes undersample g = Ok (merged, g')).
Proof.
  unfold sample. unfold mbind, Rand_bind.
  destruct (undecodable_cases dataset label) as [Hbad' | Hgood'].
  - left. split; [done|]. by rewrite (read_tfexamples_raise dataset label Hbad').
  - right. split; [done|].
    destruct (read_tfexamples_ok dataset label Hgood') as (data & Hdata & _).
    destruct (sample_examples_total data keep_classes undersample g)
      as (merged & g' & Hrun).
    exists data, merged, g'. rewrite Hdata. simpl. unfold mret, Rand_ret.
    by rewrite Hrun.
Qed.

(** ** The executor *)

Section ExecutorFacts.
Variable split_path : string → string → string.
Variable path_join : string → string → string.
Variable listdir : string → result (list string).
Variable perform : Effect → result unit.

Lemma get_split_uri_Ok artifact split :
  split ∈ split_names artifact →
  get_split_uri split_path artifact split = Ok (split_path (uri artifact) split).
Proof. intros Hin. unfold get_split_uri. by rewrite bool_decide_eq_true_2. Qed.

Lemma dict_setitem_keys d k v :
  (dict_setitem d k v).*1 = if bool_decide (k ∈ d.*1) then d.*1 else d.*1 ++ [k].
Proof.
  unfold dict_setitem. case_bool_decide as Hk.
  - rewrite <- list_fmap_compose. apply list_fmap_ext.
    intros i [k' v'] _. simpl. by case_bool_decide; simplify_eq.
  - by rewrite fmap_app.
Qed.

Lemma dict_setitem_split_uris artifact d split :
  split ∈ split_names artifact →
  split_uris_of split_path artifact d →
  split_uris_of split_path artifact
    (dict_setitem d split (split_path (uri artifact) split)).
Proof.
  intros Hin [Hnd HF]. split.
  - rewrite dict_setitem_keys. case_bool_decide as Hk; [done|].
    apply NoDup_app. split; [done|]. split; [|apply NoDup_singleton].
    by intros k Hk' ->%list_elem_of_singleton.
  - unfold dict_setitem. case_bool_decide as Hk.
    + apply Forall_fmap. eapply Forall_impl; [exact HF|].
      intros [k v] [? ?]. simpl in *. by case_bool_decide.
    + apply Forall_app. split; [done|]. by repeat constructor.
Qed.

(** Fetching the directories of an artifact's own splits never fails. *)
Lemma fetch_split_uris_ok artifact names : ∀ d,
  names ⊆ split_names artifact →
  split_uris_of split_path artifact d →
  ∃ d', fetch_split_uris split_path artifact names d = Ok d' ∧
    split_uris_of split_path artifact d' ∧
    (∀ split, split ∈ d'.*1 ↔ split ∈ d.*1 ∨ split ∈ names).
Proof.
  clear path_join listdir perform.
  induction names as [|split names IH]; intros d Hsub Hd.
  - exists d. split; [done|]. split; [done|].
    intros split. split; [by left|]. by intros [?|?%not_elem_of_nil].
  - assert (split ∈ split_names artifact) as Hin
      by apply Hsub, list_elem_of_here.
    simpl. rewrite (get_split_uri_Ok artifact split Hin).
    destruct (IH (dict_setitem d split (split_path (uri artifact) split)))
      as (d' & Hrun & Hd' & Hkeys).
    + intros k Hk. by apply Hsub, list_elem_of_further.
    + by apply dict_setitem_split_uris.
    + exists d'. split; [done|]. split; [done|].
      intros k. rewrite Hkeys, dict_setitem_keys, elem_of_cons.
      case_bool_decide as Hk.
      * split; [intros [?|?]; auto|]. intros [?|[->|?]]; auto.
      * rewrite elem_of_app, list_elem_of_singleton. tauto.
Qed.

Lemma copy_files_log input_dir output_dir filenames : ∀ log,
  ∃ calls,
    (copy_files path_join perform input_dir output_dir filenames log).1 =
      log ++ calls ∧
    Forall (λ call, ∃ filename, filename ∈ filenames ∧
      call = CopyFile (path_join input_dir filename)
               (path_join output_dir filename)) calls ∧
    omap sampled_uri calls = [] ∧
    io_outcome listdir perform calls
      (copy_files path_join perform input_dir output_dir filenames log).2.
Proof.
  induction filenames as [|filename filenames IH]; intros log.
  - exists []. simpl. rewrite app_nil_r. repeat split; [constructor | by left].
  - simpl.
    set (call := CopyFile (path_join input_dir filename)
                   (path_join output_dir filename)).
    destruct (perform call) as [[]|e] eqn:Hcall.
    + destruct (IH (log ++ [call])) as (calls & Hlog & HF & Hs & Hout).
      exists (call :: calls). rewrite Hlog, <- app_assoc.
      split; [done|]. split; [|split; [done|]].
      * constructor; [exists filename; split; [apply list_elem_of_here | done]|].
        eapply Forall_impl; [exact HF|]. intros c (f & ? & ?).
        exists f. split; [by apply list_elem_of_further | done].
      * destruct Hout as [? | [(e & dir & ? & ?) | (e & c & ? & ? & ?)]].
        -- by left.
        -- right. left. by exists e, dir.
        -- right. right. exists e, c. split; [by apply list_elem_of_further | done].
    + exists [call]. simpl. split; [done|]. split; [|split; [done|]].
      * repeat constructor. exists filename. split; [apply list_elem_of_here | done].
      * right. right. exists e, call. split; [apply list_elem_of_here | done].
Qed.

Section Loop.
Variables (input_artifact output_artifact : Artifact) (label : string).
Variables (undersample : bool) (splits : list string) (copy_others : bool).
Variables (shards : nat) (keep_classes : option (list string)).

(** The split names of the output artifact cover the splits the loop looks
    up. *)
Hypothesis output_names : ∀ split,
  split ∈ split_names input_artifact →
  split ∈ splits ∨ copy_others = true →
  split ∈ split_names output_artifact.

Lemma process_splits_log items : ∀ log,
  Forall (λ kv, kv.1 ∈ split_names input_artifact ∧
                kv.2 = split_path (uri input_artifact) kv.1) items →
  ∃ calls,
    (process_splits split_path path_join listdir perform output_artifact
       label undersample splits copy_others shards keep_classes items log).1 =
      log ++ calls ∧
    Forall (allowed_call split_path path_join listdir input_artifact
              output_artifact label undersample splits copy_others shards
              keep_classes) calls ∧
    io_outcome listdir perform calls
      (process_splits split_path path_join listdir perform output_artifact
         label undersample splits copy_others shards keep_classes items log).2 ∧
    ((process_splits split_path path_join listdir perform output_artifact
        label undersample splits copy_others shards keep_classes items log).2
       = Ok () →
     omap sampled_uri calls = (filter (λ kv, kv.1 ∈ splits) items).*2 ∧
     (copy_others = false →
      length calls = length (filter (λ kv, kv.1 ∈ splits) items))).
Proof.
  induction items as [|[split split_uri] items IH]; intros log Hitems.
  - exists []. simpl. rewrite app_nil_r.
    split; [done|]. split; [constructor|]. split; [by left | done].
  - apply Forall_cons in Hitems as [[Hin Huri] Hitems]. simpl in Hin, Huri.
    simpl. rewrite filter_cons. simpl.
    case_bool_decide as Hsplit.
    + rewrite (get_split_uri_Ok output_artifact split)
        by (apply output_names; auto).
      set (call := RunSample split_uri label shards keep_classes
        (path_join (split_path (uri output_artifact) split) ("Split-" +:+ split))
        undersample).
      assert (allowed_call split_path path_join listdir input_artifact
        output_artifact label undersample splits copy_others shards
        keep_classes call) as Hcall_ok by (by exists split).
      rewrite decide_True by done.
      destruct (perform call) as [[]|e] eqn:Hcall.
      * destruct (IH (log ++ [call]) Hitems) as (calls & Hlog & HF & Hout & Hok).
        exists (call :: calls). rewrite Hlog, <- app_assoc.
        split; [done|]. split; [by constructor|]. split.
        -- destruct Hout as [? | [(e & dir & ? & ?) | (e & c & ? & ? & ?)]].
           ++ by left.
           ++ right. left. by exists e, dir.
           ++ right. right. exists e, c.
              split; [by apply list_elem_of_further | done].
        -- intros Hst. destruct (Hok Hst) as [Hs Hlen].
           split.
           ++ change (omap sampled_uri (call :: calls))
                with (split_uri :: omap sampled_uri calls).
              by rewrite Hs.
           ++ intros Hc. simpl. by rewrite (Hlen Hc).
      * exists [call]. simpl. split; [done|]. split; [by repeat constructor|].
        split; [|done].
        right. right. exists e, call. split; [apply list_elem_of_here | done].
    + rewrite decide_False by done.
      destruct copy_others eqn:Hcopy.
      * rewrite (get_split_uri_Ok output_artifact split)
          by (apply output_names; auto).
        destruct (listdir split_uri) as [filenames|e] eqn:Hls.
        -- destruct (copy_files_log split_uri
             (split_path (uri output_artifact) split) filenames log)
             as (calls1 & Hlog1 & HF1 & Hs1 & Hout1).
           assert (Forall (allowed_call split_path path_join listdir
             input_artifact output_artifact label undersample splits true
             shards keep_classes) calls1) as Hall1.
           { eapply Forall_impl; [exact HF1|]. intros c (f & Hf & ->).
             split; [done|]. exists split, filenames, f.
             rewrite <- Huri. by repeat split. }
           destruct (copy_files path_join perform split_uri
             (split_path (uri output_artifact) split) filenames log)
             as [log1 [[]|e]]; simpl in Hlog1, Hout1; subst log1.
           ++ destruct (IH (log ++ calls1) Hitems)
                as (calls & Hlog & HF & Hout & Hok).
              exists (calls1 ++ calls). rewrite Hlog, <- app_assoc.
              split; [done|]. split; [by apply Forall_app|]. split.
              ** destruct Hout as [? | [(e & dir & ? & ?) | (e & c & ? & ? & ?)]].
                 --- by left.
                 --- right. left. by exists e, dir.
                 --- right. right. exists e, c.
                     split; [apply elem_of_app; by right | done].
              ** intros Hst. destruct (Hok Hst) as [Hs _].
                 split; [|done]. by rewrite omap_app, Hs1, Hs.
           ++ exists calls1. simpl. split; [done|]. split; [done|].
              split; [|done].
              destruct Hout1 as [? | [(e' & dir & ? & ?) | (e' & c & ? & ? & ?)]].
              ** done.
              ** right. left. by exists e', dir.
              ** right. right. by exists e', c.
        -- exists []. simpl. rewrite app_nil_r. split; [done|].
           split; [constructor|]. split; [|done].
           right. left. by exists e, split_uri.
      * apply (IH log Hitems).
Qed.
End Loop.
End ExecutorFacts.

Section DoFacts.
Variable split_path : string → string → string.
Variable path_join : string → string → string.
Variable listdir : string → result (list string).
Variable perform : Effect → result unit.
Variable valid_split_name : string → bool.
Variables (input_artifact output_artifact : Artifact) (label : string).
Variables (undersample : bool) (copy_others : bool).
Variables (shards : nat) (keep_classes : option (list string)).

Lemma get_split_uri_ext (a a' : Artifact) split :
  uri a = uri a' →
  (split ∈ split_names a ↔ split ∈ split_names a') →
  get_split_uri split_path a split = get_split_uri split_path a' split.
Proof.
  intros Huri Hnames. unfold get_split_uri. rewrite Huri.
  by rewrite (bool_decide_ext _ _ Hnames).
Qed.

(** The loop looks at [splits] and at the split names of the output
    artifact only through the splits it is run on. *)
Lemma process_splits_ext (a a' : Artifact) (splits splits' : list string) items :
  uri a = uri a' →
  Forall (λ kv : string * string,
            (kv.1 ∈ splits ↔ kv.1 ∈ splits') ∧
            (kv.1 ∈ split_names a ↔ kv.1 ∈ split_names a')) items →
  ∀ log,
    process_splits split_path path_join listdir perform a label undersample
      splits copy_others shards keep_classes items log =
    process_splits split_path path_join listdir perform a' label undersample
      splits' copy_others shards keep_classes items log.
Proof.
  clear valid_split_name input_artifact output_artifact.
  intros Huri. induction 1 as [|[split split_uri] items [Hs Hn] _ IH]; intros log;
    [done|].
  simpl in Hs, Hn. simpl.
  rewrite (bool_decide_ext _ _ Hs), (get_split_uri_ext a a' split Huri Hn).
  case_bool_decide.
  - destruct (get_split_uri split_path a' split); [|done].
    destruct (perform _) as [[]|e]; [apply IH | done].
  - destruct copy_others; [|apply IH].
    destruct (get_split_uri split_path a' split); [|done].
    destruct (listdir split_uri); [|done].
    destruct (copy_files _ _ _ _ _ _) as [log1 [[]|e]]; [apply IH | done].
Qed.

(** The keys of [split_data] come in the order in which the names first
    occur. *)
Lemma fetch_split_uris_keys artifact names : ∀ d d',
  fetch_split_uris split_path artifact names d = Ok d' →
  d'.*1 = d.*1 ++ filter (λ n, n ∉ d.*1) (first_occurrences names).
Proof.
  clear path_join listdir perform valid_split_name input_artifact output_artifact.
  induction names as [|split names IH]; intros d d'.
  - simpl. intros [= <-]. by rewrite filter_nil, app_nil_r.
  - simpl. unfold get_split_uri. case_bool_decide; [|done].
    intros Hrun. rewrite (IH _ _ Hrun), dict_setitem_keys.
    case_bool_decide as Hk.
    + rewrite filter_cons_False by (by intros Hn; apply Hn).
      rewrite list_filter_filter. do 2 f_equal.
      apply list_filter_iff. intros n. split; [|by intros [? _]].
      intros Hn. split; [done|]. by intros ->.
    + rewrite filter_cons_True by done.
      rewrite <- app_assoc. simpl. do 2 f_equal.
      rewrite list_filter_filter.
      apply list_filter_iff. intros n.
      rewrite not_elem_of_app, list_elem_of_singleton. tauto.
Qed.

Lemma forallb_false_elem (splits : list string) :
  forallb valid_split_name splits = false →
  ∃ split, split ∈ splits ∧ valid_split_name split = false.
Proof.
  induction splits as [|split splits IH]; [done|]. simpl.
  destruct (valid_split_name split) eqn:Hv; simpl.
  - intros (split' & ? & ?)%IH. exists split'.
    split; [by apply list_elem_of_further | done].
  - intros _. exists split. split; [apply list_elem_of_here | done].
Qed.

(** The run of [Do] once the split names of the output are settled. *)
Lemma Do_run (splits names : list string) :
  output_split_names valid_split_name input_artifact splits copy_others =
    Ok names →
  names = (if copy_others then split_names input_artifact else splits) ∧
  ∃ calls status,
    Do split_path path_join listdir perform valid_split_name input_artifact
       output_artifact label undersample splits copy_others shards
       keep_classes =
      ({| uri := uri output_artifact; split_names := names |}, calls, status) ∧
    Forall (allowed_call split_path path_join listdir input_artifact
              output_artifact label undersample splits copy_others shards
              keep_classes) calls ∧
    io_outcome listdir perform calls status ∧
    (status = Ok () →
     omap sampled_uri calls =
       split_path (uri input_artifact) <$>
         filter (λ split, split ∈ splits)
           (first_occurrences (split_names input_artifact)) ∧
     (copy_others = false →
      length calls =
        length (filter (λ split, split ∈ splits)
                  (first_occurrences (split_names input_artifact))))).
Proof.
  intros Hnames.
  assert (names = (if copy_others then split_names input_artifact else splits))
    as Hnames'.
  { revert Hnames. unfold output_split_names, encode_split_names.
    destruct copy_others; [by intros [= <-]|].
    destruct (forallb valid_split_name splits); [by intros [= <-] | done]. }
  split; [done|].
  destruct (fetch_split_uris_ok split_path input_artifact
    (split_names input_artifact) []) as (split_data & Hfetch & Hd & _);
    [done | by split; constructor |].
  pose proof (fetch_split_uris_keys input_artifact _ _ _ Hfetch) as Hkeys.
  simpl in Hkeys. rewrite filter_all in Hkeys
    by (intros n _; apply not_elem_of_nil).
  set (output := {| uri := uri output_artifact; split_names := names |}).
  destruct (process_splits_log split_path path_join listdir perform
    input_artifact output label undersample splits copy_others shards
    keep_classes) with (items := split_data) (log := @nil Effect)
    as (calls & Hlog & HF & Hout & Hok).
  { intros split Hin [Hs | Hc]; simpl; rewrite Hnames'.
    - by destruct copy_others.
    - by rewrite Hc. }
  { by destruct Hd. }
  exists calls,
    (process_splits split_path path_join listdir perform output label
       undersample splits copy_others shards keep_classes split_data []).2.
  split.
  { unfold Do. rewrite Hnames, Hfetch. fold output.
    destruct (process_splits _ _ _ _ _ _ _ _ _ _ _ _ _) as [log st].
    simpl in Hlog. by subst log. }
  split; [exact HF|]. split; [done|].
  intros Hst. destruct (Hok Hst) as [Hs Hlen].
  destruct Hd as [_ Hd]. rewrite <- Hkeys.
  assert ((filter (λ kv : string * string, kv.1 ∈ splits) split_data).*2 =
          split_path (uri input_artifact) <$>
            filter (λ split, split ∈ splits) split_data.*1) as Hvals.
  { clear -Hd. induction Hd as [|[k v] d [_ Hv] _ IH]; [done|].
    simpl in Hv. rewrite fmap_cons, !filter_cons. simpl.
    destruct (decide (k ∈ splits)); [|done].
    rewrite !fmap_cons. simpl. by rewrite IH, Hv. }
  split; [by rewrite Hs|].
  intros Hc. rewrite (Hlen Hc), <- (length_fmap snd), Hvals.
  by rewrite length_fmap.
Qed.

(** The run of [Do] when the split names cannot be encoded. *)
Lemma Do_abort (splits : list string) e :
  output_split_names valid_split_name input_artifact splits copy_others =
    Raise e →
  copy_others = false ∧ forallb valid_split_name splits = false ∧
  e = ValueError ∧
  Do split_path path_join listdir perform valid_split_name input_artifact
     output_artifact label undersample splits copy_others shards keep_classes =
    (output_artifact, [], Raise ValueError).
Proof.
  unfold Do, output_split_names, encode_split_names.
  destruct copy_others; [done|].
  destruct (forallb valid_split_name splits); [done|]. by intros [= <-].
Qed.
End DoFacts.

(** X12, what [Do] touches.  Every call [Do] makes is a pipeline run on an
    input split that is listed in [splits], or, with [copy_others] set, the
    copy of a file found in an input split that is not listed, to the same
    file name in the output; without [copy_others] no file is copied.  The
    output artifact keeps its uri; it lists the split names of the input
    when [copy_others] is set, and the names in [splits] when it is not and
    [encode_split_names] accepts them; when it does not accept them the
    output artifact is left as it was and no call is made. *)
Theorem Do_calls_allowed (split_path path_join : string → string → string)
    (listdir : string → result (list string)) (perform : Effect → result unit)
    (valid_split_name : string → bool)
    (input_artifact output_artifact : Artifact) (label : string)
    (undersample : bool) (splits : list string) (copy_others : bool)
    (shards : nat) (keep_classes : option (list string)) :
  Forall (allowed_call split_path path_join listdir input_artifact
            output_artifact label undersample splits copy_others shards
            keep_classes)
    (Do split_path path_join listdir perform valid_split_name input_artifact
        output_artifact label undersample splits copy_others shards
        keep_classes).1.2 ∧
  (copy_others = false →
   Forall (λ call, is_Some (sampled_uri call))
     (Do split_path path_join listdir perform valid_split_name input_artifact
         output_artifact label undersample splits copy_others shards
         keep_classes).1.2) ∧
  uri (Do split_path path_join listdir perform valid_split_name input_artifact
         output_artifact label undersample splits copy_others shards
         keep_classes).1.1 =
    uri output_artifact ∧
  (copy_others = true →
   split_names
     (Do split_path path_join listdir perform valid_split_name input_artifact
         output_artifact label undersample splits copy_others shards
         keep_classes).1.1 =
     split_names input_artifact) ∧
  (copy_others = false → forallb valid_split_name splits = true →
   split_names
     (Do split_path path_join listdir perform valid_split_name input_artifact
         output_artifact label undersample splits copy_others shards
         keep_classes).1.1 =
     splits) ∧
  (copy_others = false → forallb valid_split_name splits = false →
   Do split_path path_join listdir perform valid_split_name input_artifact
      output_artifact label undersample splits copy_others shards
      keep_classes =
     (output_artifact, [], Raise ValueError)).
Proof.
  destruct (output_split_names valid_split_name input_artifact splits
    copy_others) as [names|e] eqn:Hnames.
  - destruct (Do_run split_path path_join listdir perform valid_split_name
      input_artifact output_artifact label undersample copy_others shards
      keep_classes splits names Hnames)
      as (Hn & calls & status & -> & HF & _).
    simpl. split; [done|]. split; [|split; [done|]].
    + intros Hc. eapply Forall_impl; [exact HF|].
      intros [] Hcall; simpl; [by eexists|].
      destruct Hcall as [Hcopy _]. congruence.
    + split; [by intros Hc; rewrite Hn, Hc|].
      split; [by intros Hc _; rewrite Hn, Hc|].
      intros Hc Hv. revert Hnames.
      unfold output_split_names, encode_split_names. by rewrite Hc, Hv.
  - destruct (Do_abort split_path path_join listdir perform valid_split_name
      input_artifact output_artifact label undersample copy_others shards
      keep_classes splits e Hnames) as (Hc & Hv & _ & ->).
    simpl. split; [constructor|]. split; [by intros _; constructor|].
    split; [done|]. split; [by rewrite Hc|].
    split; [by rewrite Hv | done].
Qed.

(** X13, how [Do] ends.  A run of [Do] ends well; or, without
    [copy_others], with the [ValueError] of [encode_split_names] on a name
    of [splits] it does not accept, before any call is made; or with the
    error of a directory listing; or with the error of one of the calls it
    made.  Looking up the directory of a split never fails, neither on the
    input nor on the output artifact. *)
Theorem Do_outcomes (split_path path_join : string → string → string)
    (listdir : string → result (list string)) (perform : Effect → result unit)
    (valid_split_name : string → bool)
    (input_artifact output_artifact : Artifact) (label : string)
    (undersample : bool) (splits : list string) (copy_others : bool)
    (shards : nat) (keep_classes : option (list string)) :
  do_outcome listdir perform valid_split_name splits copy_others
    (Do split_path path_join listdir perform valid_split_name input_artifact
        output_artifact label undersample splits copy_others shards
        keep_classes).1.2
    (Do split_path path_join listdir perform valid_split_name input_artifact
        output_artifact label undersample splits copy_others shards
        keep_classes).2.
Proof.
  destruct (output_split_names valid_split_name input_artifact splits
    copy_others) as [names|e] eqn:Hnames.
  - destruct (Do_run split_path path_join listdir perform valid_split_name
      input_artifact output_artifact label undersample copy_others shards
      keep_classes splits names Hnames)
      as (_ & calls & status & -> & _ & Hout & _).
    right. split; [|done].
    revert Hnames. unfold output_split_names, encode_split_names.
    destruct copy_others; [by left|].
    destruct (forallb valid_split_name splits); [by right | done].
  - destruct (Do_abort split_path path_join listdir perform valid_split_name
      input_artifact output_artifact label undersample copy_others shards
      keep_classes splits e Hnames) as (Hc & Hv & _ & ->).
    left. split; [done|]. split; [by apply forallb_false_elem | done].
Qed.

(** X14, each listed split is sampled once, in the order of the input.
    When [Do] ends well, the pipelines it ran read the directories of the
    split names of the input that are listed in [splits], each name once
    however often the input repeats it, in the order in which the names
    first occur in the input; without [copy_others] it made no other
    call. *)
Theorem Do_samples_listed_splits
    (split_path path_join : string → string → string)
    (listdir : string → result (list string)) (perform : Effect → result unit)
    (valid_split_name : string → bool)
    (input_artifact output_artifact : Artifact) (label : string)
    (undersample : bool) (splits : list string) (copy_others : bool)
    (shards : nat) (keep_classes : option (list string)) :
  (Do split_path path_join listdir perform valid_split_name input_artifact
      output_artifact label undersample splits copy_others shards
      keep_classes).2 = Ok () →
  omap sampled_uri
    (Do split_path path_join listdir perform valid_split_name input_artifact
        output_artifact label undersample splits copy_others shards
        keep_classes).1.2 =
    split_path (uri input_artifact) <$>
      filter (λ split, split ∈ splits)
        (first_occurrences (split_names input_artifact)) ∧
  (copy_others = false →
   length
     (Do split_path path_join listdir perform valid_split_name input_artifact
         output_artifact label undersample splits copy_others shards
         keep_classes).1.2 =
   length (filter (λ split, split ∈ splits)
             (first_occurrences (split_names input_artifact)))).
Proof.
  destruct (output_split_names valid_split_name input_artifact splits
    copy_others) as [names|e] eqn:Hnames.
  - destruct (Do_run split_path path_join listdir perform valid_split_name
      input_artifact output_artifact label undersample copy_others shards
      keep_classes splits names Hnames)
      as (_ & calls & status & -> & _ & _ & Hok).
    simpl. apply Hok.
  - destruct (Do_abort split_path path_join listdir perform valid_split_name
      input_artifact output_artifact label undersample copy_others shards
      keep_classes splits e Hnames) as (_ & _ & _ & ->).
    done.
Qed.

Lemma Do_samples_listed_splits_witness :
  (Do demo_split_path demo_path_join demo_listdir demo_perform
      demo_valid_split_name demo_repeated_input demo_output "label" true
      ["eval"; "train"]%string false 0 None).2 = Ok () ∧
  omap sampled_uri
    (Do demo_split_path demo_path_join demo_listdir demo_perform
        demo_valid_split_name demo_repeated_input demo_output "label" true
        ["eval"; "train"]%string false 0 None).1.2 =
    demo_split_path (uri demo_repeated_input) <$>
      filter (λ split, split ∈ ["eval"; "train"]%string)
        (first_occurrences (split_names demo_repeated_input)) ∧
  (false = false →
   length
     (Do demo_split_path demo_path_join demo_listdir demo_perform
         demo_valid_split_name demo_repeated_input demo_output "label" true
         ["eval"; "train"]%string false 0 None).1.2 =
   length (filter (λ split, split ∈ ["eval"; "train"]%string)
             (first_occurrences (split_names demo_repeated_input)))).
Proof.
  assert ((Do demo_split_path demo_path_join demo_listdir demo_perform
             demo_valid_split_name demo_repeated_input demo_output "label"
             true ["eval"; "train"]%string false 0 None).2 = Ok ())
    as Hst by reflexivity.
  split; [exact Hst|].
  exact (Do_samples_listed_splits demo_split_path demo_path_join demo_listdir
           demo_perform demo_valid_split_name demo_repeated_input demo_output
           "label" true ["eval"; "train"]%string false 0 None Hst).
Defined.

(** X15, splits the input does not have.  [Do] depends on [splits] only
    through the split names of the input it lists and, without
    [copy_others], through whether [encode_split_names] accepts it: two
    lists that agree on both lead to the same calls and the same end, so
    that a name in [splits] that the library accepts and that is not a
    split of the input is passed over in silence. *)
Theorem Do_ignores_unknown_splits
    (split_path path_join : string → string → string)
    (listdir : string → result (list string)) (perform : Effect → result unit)
    (valid_split_name : string → bool)
    (input_artifact output_artifact : Artifact) (label : string)
    (undersample : bool) (splits splits' : list string) (copy_others : bool)
    (shards : nat) (keep_classes : option (list string)) :
  (∀ split, split ∈ split_names input_artifact →
     (split ∈ splits ↔ split ∈ splits')) →
  (copy_others = false →
     forallb valid_split_name splits = forallb valid_split_name splits') →
  (Do split_path path_join listdir perform valid_split_name input_artifact
      output_artifact label undersample splits copy_others shards
      keep_classes).1.2 =
  (Do split_path path_join listdir perform valid_split_name input_artifact
      output_artifact label undersample splits' copy_others shards
      keep_classes).1.2 ∧
  (Do split_path path_join listdir perform valid_split_name input_artifact
      output_artifact label undersample splits copy_others shards
      keep_classes).2 =
  (Do split_path path_join listdir perform valid_split_name input_artifact
      output_artifact label undersample splits' copy_others shards
      keep_classes).2.
Proof.
  intros Hagree Hvalid.
  unfold Do, output_split_names, encode_split_names.
  destruct (fetch_split_uris_ok split_path input_artifact
    (split_names input_artifact) []) as (split_data & Hfetch & [_ Hd] & _);
    [done | by split; constructor |].
  assert (∀ names names',
    (∀ split, split ∈ split_names input_artifact →
       (split ∈ names ↔ split ∈ names')) →
    process_splits split_path path_join listdir perform
      {| uri := uri output_artifact; split_names := names |} label
      undersample splits copy_others shards keep_classes split_data [] =
    process_splits split_path path_join listdir perform
      {| uri := uri output_artifact; split_names := names' |} label
      undersample splits' copy_others shards keep_classes split_data [])
    as Hloop.
  { intros names names' Hn.
    apply process_splits_ext; [done|].
    eapply Forall_impl; [exact Hd|]. intros [k v] [Hin _]. simpl in *.
    split; [by apply Hagree | by apply Hn]. }
  destruct copy_others.
  - rewrite Hfetch, (Hloop _ (split_names input_artifact)) by done.
    by destruct (process_splits _ _ _ _ _ _ _ _ _ _ _ _ _).
  - rewrite <- (Hvalid eq_refl).
    destruct (forallb valid_split_name splits); [|done].
    rewrite Hfetch, (Hloop splits splits' Hagree).
    by destruct (process_splits _ _ _ _ _ _ _ _ _ _ _ _ _).
Qed.

Lemma Do_ignores_unknown_splits_witness :
  (∀ split, split ∈ split_names demo_input →
     (split ∈ ["train"; "test"]%string ↔ split ∈ ["train"]%string)) ∧
  (false = false →
     forallb demo_valid_split_name ["train"; "test"]%string =
     forallb demo_valid_split_name ["train"]%string) ∧
  (Do demo_split_path demo_path_join demo_listdir demo_perform
      demo_valid_split_name demo_input demo_output "label" true
      ["train"; "test"]%string false 0 None).1.2 =
  (Do demo_split_path demo_path_join demo_listdir demo_perform
      demo_valid_split_name demo_input demo_output "label" true
      ["train"]%string false 0 None).1.2 ∧
  (Do demo_split_path demo_path_join demo_listdir demo_perform
      demo_valid_split_name demo_input demo_output "label" true
      ["train"; "test"]%string false 0 None).2 =
  (Do demo_split_path demo_path_join demo_listdir demo_perform
      demo_valid_split_name demo_input demo_output "label" true
      ["train"]%string false 0 None).2.
Proof.
  assert (∀ split, split ∈ split_names demo_input →
    (split ∈ ["train"; "test"]%string ↔ split ∈ ["train"]%string)) as Hagree.
  { intros split Hin. simpl in Hin.
    apply elem_of_cons in Hin as [-> | Hin].
    - split; intros _; apply list_elem_of_here.
    - apply list_elem_of_singleton in Hin as ->.
      split; intros Hin; apply elem_of_cons in Hin as [Hin | Hin];
        try discriminate Hin.
      + apply list_elem_of_singleton in Hin. discriminate Hin.
      + by apply not_elem_of_nil in Hin. }
  assert (false = false →
    forallb demo_valid_split_name ["train"; "test"]%string =
    forallb demo_valid_split_name ["train"]%string) as Hvalid
    by (intros _; reflexivity).
  split; [exact Hagree|]. split; [exact Hvalid|].
  exact (Do_ignores_unknown_splits demo_split_path demo_path_join demo_listdir
           demo_perform demo_valid_split_name demo_input demo_output "label"
           true ["train"; "test"]%string ["train"]%string false 0 None
           Hagree Hvalid).
Defined.

(** ** The degenerate case through the label extractor *)

(** A split none of whose examples holds the label feature: every example
    is read with no label and an added empty feature, and comes out of
    [sample] in that form. *)
Lemma sample_without_label_field (dataset : list (gmap string Feature))
    (label : string) (keep_classes : option (list string))
    (undersample : bool) (g : Random) :
  (∀ x, x ∈ dataset → x !! label = None) →
  read_tfexamples dataset label =
    Ok ((λ x, (LNone, <[label := KindNotSet]> x)) <$> dataset) ∧
  sample dataset label keep_classes undersample g =
    Ok ((λ x, <[label := KindNotSet]> x) <$> dataset, g) ∧
  (dataset ≠ [] →
   ¬ ((λ x, <[label := KindNotSet]> x) <$> dataset ≡ₚ dataset)).
Proof.
  intros Hmissing.
  assert (read_tfexamples dataset label =
    Ok ((λ x, (LNone, <[label := KindNotSet]> x)) <$> dataset)) as Hread.
  { induction dataset as [|x dataset IH]; [done|].
    rewrite read_tfexamples_cons, IH
      by (intros y Hy; by apply Hmissing, list_elem_of_further).
    unfold generate_elements, feature_getitem.
    by rewrite (Hmissing x (list_elem_of_here _ _)). }
  split; [done|]. split.
  - unfold sample. unfold mbind, Rand_bind. rewrite Hread. simpl.
    unfold mret, Rand_ret.
    set (data := (λ x, (LNone, <[label := KindNotSet]> x)) <$> dataset).
    assert (class_keys data keep_classes = []) as Hnil.
    { destruct (class_keys data keep_classes) as [|k ks] eqn:Hk; [done|].
      assert (k ∈ class_keys data keep_classes) as Hin
        by (rewrite Hk; apply list_elem_of_here).
      apply elem_of_class_keys in Hin as [Hin Hb]. unfold data in Hin.
      rewrite <- list_fmap_compose in Hin.
      apply list_elem_of_fmap in Hin as (x & -> & _). done. }
    rewrite (sample_examples_run data keep_classes undersample 0 [] g g).
    + simpl. do 2 f_equal. unfold null_values, data.
      rewrite filter_all.
      * by rewrite <- list_fmap_compose.
      * intros [l r] (x & [= -> ->] & _)%list_elem_of_fmap.
        unfold filter_pred, filter_null. simpl.
        by destruct (in_null_vals "None" keep_classes).
    + by apply target_size_no_class.
    + unfold resampled. by rewrite class_groups_keys, Hnil.
  - intros Hne Hperm. destruct dataset as [|x dataset]; [done|].
    assert (x ∈ (λ x, <[label := KindNotSet]> x) <$> x :: dataset) as Hx
      by (rewrite Hperm; apply list_elem_of_here).
    apply list_elem_of_fmap in Hx as (y & Hxy & _).
    pose proof (Hmissing x (list_elem_of_here _ _)) as Hl.
    rewrite Hxy, lookup_insert_eq in Hl. discriminate Hl.
Qed.

(** C9, the degenerate case at a split whose single example has no feature
    named "label".  The example is read without a label, no class is
    counted and the target size is [0], as stated; but the example that
    [sample] returns holds an added empty feature "label", so that the
    output is not the input unchanged. *)
Theorem degenerate_case_inserts_feature :
  unlabelled_example !! "label"%string = None ∧
  read_tfexamples [unlabelled_example] "label" =
    Ok [(LNone, <["label"%string := KindNotSet]> unlabelled_example)] ∧
  class_count [(LNone, <["label"%string := KindNotSet]> unlabelled_example)]
    None = [] ∧
  target_size [(LNone, <["label"%string := KindNotSet]> unlabelled_example)]
    None true = Ok 0 ∧
  sample [unlabelled_example] "label" None true demo_gen =
    Ok ([<["label"%string := KindNotSet]> unlabelled_example], demo_gen) ∧
  <["label"%string := KindNotSet]> unlabelled_example ≠ unlabelled_example ∧
  ¬ ([<["label"%string := KindNotSet]> unlabelled_example] ≡ₚ
     [unlabelled_example]).
Proof.
  assert (∀ x, x ∈ [unlabelled_example] → x !! "label"%string = None) as Hmissing
    by (by intros x ->%list_elem_of_singleton).
  destruct (sample_without_label_field [unlabelled_example] "label" None true
    demo_gen Hmissing) as (Hread & Hrun & Hperm).
  split; [done|]. split; [exact Hread|]. split; [done|]. split; [done|].
  split; [exact Hrun|]. split.
  - intros Heq.
    assert (<["label"%string := KindNotSet]> unlabelled_example !! "label"%string
            = unlabelled_example !! "label"%string) as Hl by (by rewrite Heq).
    rewrite lookup_insert_eq in Hl. discriminate Hl.
  - by apply Hperm.
Qed.
